(** * Registration core of the conjure station: [application/lib/registration.go]

    A shallow embedding of the registration entity ([DecoyRegistration]),
    its presentation helpers ([String], [IDString]), the registration table
    ([RegisteredDecoys]), the liveness prober ([phantomIsLive]) and the
    manager constructor ([NewRegistrationManager]), followed by the
    properties of the specification that concern them; then the manager's
    operations ([NewRegistration], [AddRegistration] with the notification
    of the detector, [CheckRegistration], [RemoveOldRegistrations]) and the
    address dialled by [PhantomIsLive], with further properties of the code.

    Conventions of the embedding:
    - a Go pointer [*T] is an [option T], [None] being [nil];
    - a Go [[]byte] is a [list byte], a Go [string] a [string];
    - [len] and slice indices are [nat] (they are never negative and no
      arithmetic on them can overflow for slices that fit in memory);
    - [time.Time] is an integer count of nanoseconds on the monotonic clock;
    - a call that can fault returns an [outcome]. *)

From Stdlib Require Import ZArith NArith Strings.Byte Ascii String List Lia.
From stdpp Require Import gmap strings list fin_maps.
Import ListNotations.

Local Open Scope string_scope.

(** ** Results of calls that may fault *)

Inductive outcome (A : Type) : Type :=
| Returns (a : A)   (* the call returns [a] *)
| Panics            (* run-time panic (nil dereference, index out of range) *)
| OutOfFuel.        (* the call is still recursing when the budget is spent *)
Arguments Returns {A} a.
Arguments Panics {A}.
Arguments OutOfFuel {A}.

Definition obind {A B} (o : outcome A) (k : A -> outcome B) : outcome B :=
  match o with
  | Returns a => k a
  | Panics => Panics
  | OutOfFuel => OutOfFuel
  end.

(** A library call modelled on a fragment only ([None] outside it); the
    library calls themselves never fault on the arguments this file passes. *)
Definition of_option {A} (o : option A) : outcome A :=
  match o with
  | Some a => Returns a
  | None => Panics
  end.

(** ** [encoding/hex] *)

Module hex.

Definition hextable : list byte := list_byte_of_string "0123456789abcdef".

(** [hextable[i]]; every index used below is smaller than 16. *)
Definition hexdigit (i : N) : byte := nth (N.to_nat i) hextable "0"%byte.

Definition EncodedLen (n : nat) : nat := n * 2.

(** [dst[j] = b]; an index outside the slice panics. *)
Definition store (dst : list byte) (j : nat) (b : byte) : option (list byte) :=
  if decide (j < length dst) then Some (<[j:=b]> dst) else None.

(** The loop of [Encode]: [for _, v := range src] with the running [j]. *)
Fixpoint Encode_loop (src : list byte) (j : nat) (dst : list byte)
  : option (list byte) :=
  match src with
  | [] => Some dst
  | v :: src' =>
      match store dst j (hexdigit (N.shiftr (Byte.to_N v) 4)) with
      | None => None
      | Some dst1 =>
          match store dst1 (j + 1) (hexdigit (N.land (Byte.to_N v) 15)) with
          | None => None
          | Some dst2 => Encode_loop src' (j + 2) dst2
          end
      end
  end.

(** [Encode(dst, src)]: the buffer after the call and the returned count;
    [None] when a write falls outside [dst]. *)
Definition Encode (dst src : list byte) : option (list byte * nat) :=
  match Encode_loop src 0 dst with
  | None => None
  | Some dst' => Some (dst', length src * 2)
  end.

(** The two hexadecimal digits of one byte. *)
Definition digits (v : byte) : list byte :=
  [hexdigit (N.shiftr (Byte.to_N v) 4); hexdigit (N.land (Byte.to_N v) 15)].

(** The hexadecimal text of a byte sequence, two digits per byte. *)
Definition text (src : list byte) : list byte := flat_map digits src.

End hex.

(** [make([]byte, n)] *)
Definition make_bytes (n : nat) : list byte := replicate n x00.

(** [s[:hi]]; a bound beyond the slice panics. *)
Definition slice_to (s : list byte) (hi : nat) : option (list byte) :=
  if decide (hi <= length s) then Some (take hi s) else None.

(** ** [fmt.Sprintf], on the directives this file uses *)

Module fmt.

Inductive operand : Type :=
| OString (s : string)
| OBytes (b : list byte)
| OUint8 (n : byte).

(** Hexadecimal digits of [n], most significant first, no leading zero
    ("0" for zero); [fuel] bounds the number of digits. *)
Fixpoint hex_of_N (fuel : nat) (n : N) (acc : list byte) : list byte :=
  match fuel with
  | O => acc
  | S fuel' =>
      let acc' := hex.hexdigit (N.land n 15) :: acc in
      if N.eqb (N.shiftr n 4) 0 then acc' else hex_of_N fuel' (N.shiftr n 4) acc'
  end.

(** Left padding with zeros up to [width] (flag [0]). *)
Definition pad0 (width : nat) (s : list byte) : list byte :=
  replicate (width - length s) "0"%byte ++ s.

(** [%v] and [%s] *)
Definition verb_v (o : operand) : option string :=
  match o with
  | OString s => Some s
  | _ => None
  end.

Definition verb_s (o : operand) : option string :=
  match o with
  | OString s => Some s
  | OBytes b => Some (string_of_list_byte b)
  | OUint8 _ => None
  end.

(** [%02x] *)
Definition verb_02x (o : operand) : option string :=
  match o with
  | OUint8 n => Some (string_of_list_byte (pad0 2 (hex_of_N 2 (Byte.to_N n) [])))
  | _ => None
  end.

Definition emit (v : option string) (rest : option string) : option string :=
  match v, rest with
  | Some a, Some b => Some (a ++ b)
  | _, _ => None
  end.

Fixpoint Sprintf (format : string) (args : list operand) : option string :=
  match format with
  | EmptyString =>
      match args with [] => Some EmptyString | _ => None end
  | String "%" (String "v" rest) =>
      match args with
      | a :: args' => emit (verb_v a) (Sprintf rest args')
      | [] => None
      end
  | String "%" (String "s" rest) =>
      match args with
      | a :: args' => emit (verb_s a) (Sprintf rest args')
      | [] => None
      end
  | String "%" (String "0" (String "2" (String "x" rest))) =>
      match args with
      | a :: args' => emit (verb_02x a) (Sprintf rest args')
      | [] => None
      end
  | String "%" _ => None
  | String c rest =>
      match Sprintf rest args with
      | Some s => Some (String c s)
      | None => None
      end
  end.

End fmt.

(** ** The registration entity *)

(** [net.IP] is a byte slice. *)
Definition IP : Type := list byte.

(** Modelled from the spec: the key material [ConjureSharedKeys] is declared
    in another file of the package; of its fields this file reads the shared
    secret (and hands the seed to the address selection). *)
Record ConjureSharedKeys : Type := {
  SharedSecret : list byte;
  DarkDecoySeed : list byte;
}.

Record DecoyRegistration : Type := {
  DarkDecoy : option IP;
  keys : option ConjureSharedKeys;
  Covert : string;
  Mask : string;
  Flags : byte;
}.

Definition digest_format : string :=
  "{phantom=%v, covert=%v, mask=%v, flags=0x%02x, Shared Secret:%s}".

Section Entity.

(** [net.IP.String], the textual form of an address, is the library's. *)
Variable IP_String : IP -> string.

(** [p.String()] on a [*net.IP]: the pointer is dereferenced first. *)
Definition IP_ptr_String (p : option IP) : outcome string :=
  match p with
  | None => Panics
  | Some ip => Returns (IP_String ip)
  end.

(** [func (reg *DecoyRegistration) String() string]; [fuel] bounds the depth
    of the calls of [String] from itself. *)
Fixpoint DecoyRegistration_String (fuel : nat) (reg : option DecoyRegistration)
  : outcome string :=
  match fuel with
  | O => OutOfFuel
  | S fuel' =>
      match reg with
      | None =>
          obind (DecoyRegistration_String fuel' reg) (fun s =>
          of_option (fmt.Sprintf "%v" [fmt.OString s]))
      | Some r =>
          match keys r with
          | None => Panics
          | Some k =>
              let reprStr := make_bytes (hex.EncodedLen (length (SharedSecret k))) in
              obind (of_option (hex.Encode reprStr (SharedSecret k))) (fun '(reprStr, _) =>
              obind (IP_ptr_String (DarkDecoy r)) (fun phantom =>
              of_option (fmt.Sprintf digest_format
                           [fmt.OString phantom; fmt.OString (Covert r);
                            fmt.OString (Mask r); fmt.OUint8 (Flags r);
                            fmt.OBytes reprStr])))
          end
      end
  end.

End Entity.

(** [func (reg *DecoyRegistration) IDString() string] *)
Definition DecoyRegistration_IDString (reg : option DecoyRegistration)
  : outcome string :=
  match reg with
  | None => Returns "000000"
  | Some r =>
      match keys r with
      | None => Returns "000000"
      | Some k =>
          let secret := make_bytes (hex.EncodedLen (length (SharedSecret k))) in
          obind (of_option (hex.Encode secret (SharedSecret k))) (fun '(secret, n) =>
          if decide (n < 6) then Returns "000000"
          else
            obind (of_option (slice_to secret 6)) (fun prefix =>
            of_option (fmt.Sprintf "%s" [fmt.OBytes prefix])))
      end
  end.

(** ** Time *)

(** [time.Time] and [time.Duration], in nanoseconds. *)
Definition Time : Type := Z.
Definition Duration : Type := Z.

Definition Millisecond : Duration := 1000000%Z.
Definition Second : Duration := (1000 * Millisecond)%Z.
Definition Minute : Duration := (60 * Second)%Z.

(** [t.Add(d)] and [t.After(u)] *)
Definition Time_Add (t : Time) (d : Duration) : Time := (t + d)%Z.
Definition Time_After (t u : Time) : bool := (u <? t)%Z.

(** ** The registration table *)

(** An element of [decoysTimeouts]. *)
Record timeoutEntry : Type := {
  decoy : string;
  registrationTime : Time;
}.

(** [RegisteredDecoys]. The map holds the pointers stored by [register],
    which stores no [nil]; reading a key that is not in a Go map gives [nil],
    so [decoys r !! k] is the value of [r.decoys[k]]. The mutex [m] makes
    the three operations atomic: each is one state transformer. *)
Record RegisteredDecoys : Type := {
  decoys : gmap string DecoyRegistration;
  decoysTimeouts : list timeoutEntry;
}.

Definition NewRegisteredDecoys : RegisteredDecoys :=
  {| decoys := ∅; decoysTimeouts := [] |}.

(** [register]; [now] is the value of [time.Now()] in the call. *)
Definition register (now : Time) (darkDecoyAddr : string)
    (d : option DecoyRegistration) (r : RegisteredDecoys) : RegisteredDecoys :=
  match d with
  | Some e =>
      {| decoys := <[darkDecoyAddr := e]> (decoys r);
         decoysTimeouts :=
           decoysTimeouts r ++
           [{| decoy := darkDecoyAddr; registrationTime := now |}] |}
  | None => r
  end.

(** The loop of [removeOldRegistrations]: [rest] is the queue from index
    [idx] on; the result is the final [idx] and map. *)
Fixpoint removeOld_loop (cutoff : Time) (rest : list timeoutEntry) (idx : nat)
    (m : gmap string DecoyRegistration) : nat * gmap string DecoyRegistration :=
  match rest with
  | [] => (idx, m)
  | e :: rest' =>
      if Time_After cutoff (registrationTime e) then (idx, m)
      else removeOld_loop cutoff rest' (idx + 1) (delete (decoy e) m)
  end.

Definition removeOld_timeout : Duration := (- Minute * 5)%Z.

(** [removeOldRegistrations]; [now] is the value of [time.Now()]. *)
Definition removeOldRegistrations (now : Time) (r : RegisteredDecoys)
  : RegisteredDecoys :=
  let cutoff := Time_Add now removeOld_timeout in
  let '(idx, m) := removeOld_loop cutoff (decoysTimeouts r) 0 (decoys r) in
  {| decoys := m; decoysTimeouts := drop idx (decoysTimeouts r) |}.

Section Table.

Variable IP_String : IP -> string.

(** [checkRegistration]: the value returned and the table after the call. *)
Definition checkRegistration (darkDecoyAddr : option IP) (r : RegisteredDecoys)
  : outcome (option DecoyRegistration) * RegisteredDecoys :=
  (obind (IP_ptr_String IP_String darkDecoyAddr) (fun darkDecoyAddrStatic =>
   Returns (decoys r !! darkDecoyAddrStatic)), r).

(** A call of one of the three table operations. *)
Inductive call : Type :=
| CallRegister (darkDecoyAddr : string) (d : option DecoyRegistration)
| CallCheck (darkDecoyAddr : option IP)
| CallRemoveOld.

(** The table after a call made when the clock shows [now]. *)
Definition exec (now : Time) (c : call) (r : RegisteredDecoys) : RegisteredDecoys :=
  match c with
  | CallRegister a d => register now a d r
  | CallCheck a => snd (checkRegistration a r)
  | CallRemoveOld => removeOldRegistrations now r
  end.

End Table.

(** A sequence of [register] calls, each with its clock reading. *)
Definition register_all (calls : list (Time * string * option DecoyRegistration))
    (r : RegisteredDecoys) : RegisteredDecoys :=
  foldl (fun r '(now, a, d) => register now a d r) r calls.

(** ** Errors *)

(** An [error] value, by its message; a [nil] error is [None]. *)
Definition error : Type := string.

(** ** The liveness prober *)

Module prober.

(** A buffered channel [chan error]: its capacity and the values it holds,
    oldest first. *)
Record chan : Type := {
  cap : nat;
  buf : list (option error);
}.

(** [make(chan error, n)] *)
Definition make_chan (n : nat) : chan := {| cap := n; buf := [] |}.

(** [c <- v]: [None] when the buffer is full and the sender has to wait. *)
Definition send (c : chan) (v : option error) : option chan :=
  if decide (length (buf c) < cap c)
  then Some {| cap := cap c; buf := buf c ++ [v] |}
  else None.

(** [<-c] in a [select] with a [default]: [None] when nothing is buffered. *)
Definition try_recv (c : chan) : option (option error * chan) :=
  match buf c with
  | [] => None
  | v :: rest => Some (v, {| cap := cap c; buf := rest |})
  end.

Definition width : nat := 8.

Definition timeout : Duration := (750 * Millisecond)%Z.

(** [fmt.Errorf("Reached statistical timeout %v ms", timeout)]: a
    [time.Duration] of 750 milliseconds prints as [750ms]. *)
Definition timeout_error : error := "Reached statistical timeout 750ms ms".

(** Where a goroutine running [testConnect] stands. *)
Inductive attempt_pc : Type :=
| AtDial                    (* in [net.Dial] *)
| AtSendErr (err : error)   (* at [dialError <- err] *)
| AtClose                   (* at [conn.Close()] *)
| AtSendNil                 (* at [dialError <- nil] *)
| Exited.                   (* returned *)

(** A goroutine and the number of values it has put on the channel. *)
Record attempt : Type := {
  pc : attempt_pc;
  deposited : nat;
}.

(** Where the caller of [phantomIsLive] stands. *)
Inductive main_pc : Type :=
| Spawning (i : nat)                          (* the [for] loop, at its test *)
| Sleeping                                    (* in [time.Sleep(timeout)] *)
| AtSelect                                    (* at the [select] *)
| Returned (live : bool) (err : option error).

(** The state of one call of [phantomIsLive]. [reported] is a history
    variable: the values sent so far, with the sender, in order. *)
Record state : Type := {
  dialError : chan;
  attempts : list attempt;
  main : main_pc;
  reported : list (nat * option error);
}.

Definition init : state :=
  {| dialError := make_chan width; attempts := []; main := Spawning 0;
     reported := [] |}.

(** What the scheduler and the network do next. *)
Inductive event : Type :=
| Main                                      (* the caller takes a step *)
| DialReturns (j : nat) (err : option error) (* [net.Dial] of attempt [j] returns *)
| Attempt (j : nat).                        (* attempt [j] takes a step *)

(** The two arms of the [select]. *)
Definition select_result (received : option (option error)) : bool * option error :=
  match received with
  | Some (Some err) => (false, Some err)
  | Some None => (true, None)
  | None => (false, Some timeout_error)
  end.

Definition step_main (s : state) : option state :=
  match main s with
  | Spawning i =>
      if decide (i < width) then
        Some {| dialError := dialError s;
                attempts := attempts s ++ [{| pc := AtDial; deposited := 0 |}];
                main := Spawning (i + 1);
                reported := reported s |}
      else
        Some {| dialError := dialError s; attempts := attempts s;
                main := Sleeping; reported := reported s |}
  | Sleeping =>
      Some {| dialError := dialError s; attempts := attempts s;
              main := AtSelect; reported := reported s |}
  | AtSelect =>
      match try_recv (dialError s) with
      | Some (v, c) =>
          let '(live, err) := select_result (Some v) in
          Some {| dialError := c; attempts := attempts s;
                  main := Returned live err; reported := reported s |}
      | None =>
          let '(live, err) := select_result None in
          Some {| dialError := dialError s; attempts := attempts s;
                  main := Returned live err; reported := reported s |}
      end
  | Returned _ _ => None
  end.

Definition set_attempt (s : state) (j : nat) (a : attempt) : state :=
  {| dialError := dialError s; attempts := <[j := a]> (attempts s);
     main := main s; reported := reported s |}.

(** Attempt [j] sends [v] and returns. *)
Definition step_send (s : state) (j : nat) (a : attempt) (v : option error)
  : option state :=
  match send (dialError s) v with
  | None => None
  | Some c =>
      Some {| dialError := c;
              attempts := <[j := {| pc := Exited; deposited := deposited a + 1 |}]>
                            (attempts s);
              main := main s;
              reported := reported s ++ [(j, v)] |}
  end.

(** One step; [None] when the event cannot happen in [s] (no such attempt,
    a goroutine that has returned, a send that has to wait). *)
Definition step (ev : event) (s : state) : option state :=
  match ev with
  | Main => step_main s
  | DialReturns j err =>
      match attempts s !! j with
      | Some a =>
          match pc a, err with
          | AtDial, Some e =>
              Some (set_attempt s j {| pc := AtSendErr e; deposited := deposited a |})
          | AtDial, None =>
              Some (set_attempt s j {| pc := AtClose; deposited := deposited a |})
          | _, _ => None
          end
      | None => None
      end
  | Attempt j =>
      match attempts s !! j with
      | Some a =>
          match pc a with
          | AtSendErr e => step_send s j a (Some e)
          | AtClose =>
              Some (set_attempt s j {| pc := AtSendNil; deposited := deposited a |})
          | AtSendNil => step_send s j a None
          | AtDial | Exited => None
          end
      | None => None
      end
  end.

(** A schedule, run from [s]. *)
Fixpoint run (evs : list event) (s : state) : option state :=
  match evs with
  | [] => Some s
  | ev :: evs' =>
      match step ev s with
      | Some s' => run evs' s'
      | None => None
      end
  end.

(** *** The invariant of the prober *)

(** An attempt that has not returned has its send still to do. *)
Definition weight (a : attempt) : nat :=
  match pc a with
  | Exited => 0
  | _ => 1
  end.

(** The sends still to come from the goroutines started so far. *)
Fixpoint pending (l : list attempt) : nat :=
  match l with
  | [] => 0
  | a :: l' => weight a + pending l'
  end.

(** The goroutines the loop has still to start. *)
Definition to_spawn (m : main_pc) : nat :=
  match m with
  | Spawning i => width - i
  | _ => 0
  end.

Definition spawned (m : main_pc) (n : nat) : Prop :=
  match m with
  | Spawning i => n = i /\ i <= width
  | _ => n = width
  end.

(** An attempt has sent once when it has returned, and not before. *)
Definition attempt_ok (a : attempt) : Prop :=
  match pc a with
  | Exited => deposited a = 1
  | _ => deposited a = 0
  end.

Definition has_returned (m : main_pc) : bool :=
  match m with
  | Returned _ _ => true
  | _ => false
  end.

Definition inv (s : state) : Prop :=
  cap (dialError s) = width /\
  length (buf (dialError s)) + pending (attempts s) + to_spawn (main s) <= width /\
  spawned (main s) (length (attempts s)) /\
  Forall attempt_ok (attempts s) /\
  (has_returned (main s) = false -> buf (dialError s) = snd <$> reported s).

End prober.

(** ** The manager's constructor *)

Section Manager.

(** The address selector [DDIpSelector] is declared in another file. *)
Variable DDIpSelector : Type.

(** [log.New(out, prefix, flag)] *)
Record Logger : Type := {
  logger_out : string;
  logger_prefix : string;
  logger_flag : Z;
}.

Definition log_Lmicroseconds : Z := 4.

Record RegistrationManager : Type := {
  registeredDecoys : RegisteredDecoys;
  manager_Logger : Logger;
  DDSelector : option DDIpSelector;
}.

(** The format of the error built when the selector cannot be made; it
    ends with a newline. *)
Definition selector_error_format : string :=
  "Failed to create the DDIpSelector Object: %v" ++ String "010" "".

(** [fmt.Errorf(format, err)]: builds an error value, writes nothing. *)
Definition fmt_Errorf (format : string) (err : error) : option error :=
  fmt.Sprintf format [fmt.OString err].

(** [NewRegistrationManager], given the two results [d, err] of
    [NewDDIpSelector()]: the value returned, and the text the call writes
    to the standard output or to a log. *)
Definition NewRegistrationManager (d : option DDIpSelector) (err : option error)
  : outcome (option RegistrationManager) * list string :=
  let logger :=
    {| logger_out := "os.Stdout"; logger_prefix := ""; logger_flag := log_Lmicroseconds |} in
  match err with
  | Some e =>
      let _ := fmt_Errorf selector_error_format e in
      (Returns None, [])
  | None =>
      (Returns (Some {| manager_Logger := logger;
                        registeredDecoys := NewRegisteredDecoys;
                        DDSelector := d |}), [])
  end.

End Manager.

(** ** [net.IP.To4] *)

Definition IPv4len : nat := 4.
Definition IPv6len : nat := 16.

(** [isZeros(p)] *)
Definition isZeros (p : list byte) : bool :=
  forallb (fun b => Byte.eqb b x00) p.

(** [ip.To4()]; [None] is the [nil] slice. The indexed reads come after
    the test of the length, which makes them fall inside the slice. *)
Definition To4 (ip : IP) : option IP :=
  if decide (length ip = IPv4len) then Some ip
  else if bool_decide (length ip = IPv6len)
          && isZeros (take 10 ip)
          && Byte.eqb (nth 10 ip x00) xff
          && Byte.eqb (nth 11 ip x00) xff
       then Some (drop 12 (take 16 ip))
       else None.

(** [p.To4()] on a [*net.IP]: the pointer is dereferenced first. *)
Definition IP_ptr_To4 (p : option IP) : outcome (option IP) :=
  match p with
  | None => Panics
  | Some ip => Returns (To4 ip)
  end.

(** [string(b)] of a byte slice; the [nil] slice gives the empty string. *)
Definition string_of_slice (b : option (list byte)) : string :=
  match b with
  | Some l => string_of_list_byte l
  | None => ""
  end.

(** ** Calls with effects outside the process *)

(** [redis.Options], with the fields that [getRedisClient] sets. *)
Record redis_Options : Type := {
  redis_Addr : string;
  redis_Password : string;
  redis_DB : Z;
  redis_PoolSize : Z;
}.

(** What a call does to the world outside the table, in order. *)
Inductive effect : Type :=
| Stdout (text : string)                       (* [fmt.Printf] *)
| RedisNewClient (opts : redis_Options)        (* [redis.NewClient] *)
| RedisPing                                    (* [client.Ping()] *)
| RedisPublish (channel message : string)      (* [client.Publish] *)
| RedisClose.                                  (* [client.Close()] *)

(** A call: how it ends and what it has done until then. *)
Definition io (A : Type) : Type := outcome A * list effect.

Definition io_lift {A} (o : outcome A) : io A := (o, []).

Definition io_emit (e : effect) : io unit := (Returns tt, [e]).

Definition io_bind {A B} (m : io A) (k : A -> io B) : io B :=
  match m with
  | (Returns a, tr) => let '(o, tr') := k a in (o, (tr ++ tr')%list)
  | (Panics, tr) => (Panics, tr)
  | (OutOfFuel, tr) => (OutOfFuel, tr)
  end.

Definition DETECTOR_REG_CHANNEL : string := "dark_decoy_map".

Definition redis_options : redis_Options :=
  {| redis_Addr := "localhost:6379"; redis_Password := "";
     redis_DB := 0; redis_PoolSize := 10 |}.

(** [getRedisClient]; [ping] is the error of [client.Ping().Result()].
    The client is returned in both cases. *)
Definition getRedisClient (ping : option error)
  : io (redis_Options * option error) :=
  io_bind (io_emit (RedisNewClient redis_options)) (fun _ =>
  io_bind (io_emit RedisPing) (fun _ =>
  io_lift (Returns (redis_options, ping)))).

(** [registerForDetector] *)
Definition registerForDetector (ping : option error) (reg : option DecoyRegistration)
  : io unit :=
  io_bind (getRedisClient ping) (fun '(client, err) =>
  match err with
  | Some _ => io_emit (Stdout "couldn't connect to redis")
  | None =>
      match reg with
      | None => io_lift Panics
      | Some r =>
          io_bind (io_lift (IP_ptr_To4 (DarkDecoy r))) (fun p4 =>
          io_bind (io_emit (RedisPublish DETECTOR_REG_CHANNEL (string_of_slice p4))) (fun _ =>
          io_emit RedisClose))
      end
  end).

(** ** The rest of the manager *)

Section ManagerOperations.

Variable DDIpSelector : Type.

Variable IP_String : IP -> string.

(** [pb.ClientToStation] and the getters of the generated code that
    [NewRegistration] calls; they accept a [nil] message. *)
Variable ClientToStation : Type.
Variable GetDecoyListGeneration : option ClientToStation -> Z.
Variable GetV6Support : option ClientToStation -> bool.
Variable GetCovertAddress : option ClientToStation -> string.
Variable GetMaskedDecoyServerName : option ClientToStation -> string.

(** The method [Select(seed, generation, v6Support)] of the selector, declared in
    another file: the address and the error it returns. *)
Variable Select :
  option DDIpSelector -> list byte -> Z -> bool -> option IP * option error.

Definition select_error_format : string :=
  "Failed to select dark decoy IP address: %v".

(** [NewRegistration]: the two values it returns. *)
Definition NewRegistration (regManager : option (RegistrationManager DDIpSelector))
    (c2s : option ClientToStation) (conjureKeys : option ConjureSharedKeys)
    (flags : byte) : outcome (option DecoyRegistration * option error) :=
  match regManager with
  | None => Panics
  | Some m =>
      match conjureKeys with
      | None => Panics
      | Some k =>
          let '(darkDecoyAddr, err) :=
            Select (DDSelector _ m) (DarkDecoySeed k)
                   (GetDecoyListGeneration c2s) (GetV6Support c2s) in
          match err with
          | Some e => Returns (None, fmt_Errorf select_error_format e)
          | None =>
              Returns (Some {| DarkDecoy := darkDecoyAddr;
                               keys := conjureKeys;
                               Covert := GetCovertAddress c2s;
                               Mask := GetMaskedDecoyServerName c2s;
                               Flags := flags |}, None)
          end
      end
  end.

(** The manager with its table replaced: the table is held by pointer and
    changed in place. *)
Definition with_table (m : RegistrationManager DDIpSelector) (r : RegisteredDecoys)
  : RegistrationManager DDIpSelector :=
  {| registeredDecoys := r; manager_Logger := manager_Logger _ m;
     DDSelector := DDSelector _ m |}.

(** [AddRegistration]; [ping] is the state of the detector's redis and
    [now] the reading of the clock in [register]. The manager after the call
    is returned. *)
Definition AddRegistration (ping : option error) (now : Time)
    (regManager : option (RegistrationManager DDIpSelector))
    (d : option DecoyRegistration) : io (RegistrationManager DDIpSelector) :=
  io_bind (registerForDetector ping d) (fun _ =>
  match d with
  | None => io_lift Panics
  | Some r =>
      io_bind (io_lift (IP_ptr_String IP_String (DarkDecoy r))) (fun darkDecoyAddr =>
      match regManager with
      | None => io_lift Panics
      | Some m =>
          io_lift (Returns (with_table m
                              (register now darkDecoyAddr d (registeredDecoys _ m))))
      end)
  end).

(** [CheckRegistration] of the manager *)
Definition CheckRegistration (regManager : option (RegistrationManager DDIpSelector))
    (darkDecoyAddr : option IP) : outcome (option DecoyRegistration) :=
  match regManager with
  | None => Panics
  | Some m => fst (checkRegistration IP_String darkDecoyAddr (registeredDecoys _ m))
  end.

(** [RemoveOldRegistrations] of the manager *)
Definition RemoveOldRegistrations (now : Time)
    (regManager : option (RegistrationManager DDIpSelector))
  : outcome (RegistrationManager DDIpSelector) :=
  match regManager with
  | None => Panics
  | Some m => Returns (with_table m (removeOldRegistrations now (registeredDecoys _ m)))
  end.

(** [PhantomIsLive], up to the call of [phantomIsLive]: the address that
    is dialled. *)
Definition PhantomIsLive_address (reg : option DecoyRegistration) : outcome string :=
  match reg with
  | None => Panics
  | Some r =>
      obind (IP_ptr_To4 (DarkDecoy r)) (fun p4 =>
      match p4 with
      | Some _ =>
          obind (IP_ptr_String IP_String (DarkDecoy r)) (fun s =>
          Returns (s ++ ":443"))
      | None =>
          obind (IP_ptr_String IP_String (DarkDecoy r)) (fun s =>
          Returns ("[" ++ s ++ "]:443"))
      end)
  end.

(** A sequence of table calls, each with its clock reading. *)
Definition exec_all (calls : list (Time * call)) (r : RegisteredDecoys)
  : RegisteredDecoys :=
  foldl (fun r '(now, c) => exec IP_String now c r) r calls.

End ManagerOperations.

(** ** Derived notions used in the statements *)

(** The entities registered for [addr], oldest first: the arguments of the
    calls [register(addr, d)] with [d] not [nil]. *)
Definition registrations_of (addr : string)
    (calls : list (Time * string * option DecoyRegistration))
  : list DecoyRegistration :=
  omap (fun '(_, a, d) => if decide (a = addr) then d else None) calls.

(** The entity argument of the most recent call [register(addr, d)], [nil]
    or not. *)
Definition most_recent_call (addr : string)
    (calls : list (Time * string * option DecoyRegistration))
  : option (option DecoyRegistration) :=
  last (omap (fun '(_, a, d) => if decide (a = addr) then Some d else None) calls).

(** The entries the loop of [removeOldRegistrations] goes over before it
    stops: the longest prefix of the queue none of whose entries the
    cutoff is after. *)
Fixpoint swept (cutoff : Time) (q : list timeoutEntry) : list timeoutEntry :=
  match q with
  | [] => []
  | e :: q' =>
      if Time_After cutoff (registrationTime e) then []
      else e :: swept cutoff q'
  end.

(** The addresses a sweep at [now] deletes from the map. *)
Definition evicted (now : Time) (r : RegisteredDecoys) : list string :=
  decoy <$> swept (Time_Add now removeOld_timeout) (decoysTimeouts r).

Definition delete_all (m : gmap string DecoyRegistration) (l : list timeoutEntry)
  : gmap string DecoyRegistration :=
  foldl (fun m e => delete (decoy e) m) m l.

(** The registration times do not decrease along the queue. *)
Definition queue_sorted (q : list timeoutEntry) : Prop :=
  forall (i j : nat) (ei ej : timeoutEntry),
    i <= j -> q !! i = Some ei -> q !! j = Some ej ->
    (registrationTime ei <= registrationTime ej)%Z.

(** The queue is in order and holds no entry stamped later than [now]. *)
Definition queue_ok (now : Time) (r : RegisteredDecoys) : Prop :=
  queue_sorted (decoysTimeouts r) /\
  forall e : timeoutEntry, e ∈ decoysTimeouts r -> (registrationTime e <= now)%Z.

(** ** The entities and tables of the scenarios *)

Definition secret_deadbeef : ConjureSharedKeys :=
  {| SharedSecret := [xde; xad; xbe; xef]; DarkDecoySeed := [] |}.

Definition secret_short : ConjureSharedKeys :=
  {| SharedSecret := [xde; xad]; DarkDecoySeed := [] |}.

Definition entity_of (phantom : option IP) (k : option ConjureSharedKeys)
  : DecoyRegistration :=
  {| DarkDecoy := phantom; keys := k; Covert := "example.com";
     Mask := "decoy.test"; Flags := x01 |}.

Definition phantom_10_0_0_5 : IP := [x0a; x00; x00; x05].

Definition entity_10_0_0_5 : DecoyRegistration :=
  entity_of (Some phantom_10_0_0_5) (Some secret_deadbeef).

(** The table of the scenario: the address registered when the clock
    shows 0. *)
Definition table_registered_at_0 : RegisteredDecoys :=
  register 0%Z "10.0.0.5" (Some entity_10_0_0_5) NewRegisteredDecoys.

(** A run in which attempt 3 is refused and reports first, attempt 0
    connects and reports second, and the caller then reaches the [select]. *)
Definition schedule_refused : list prober.event :=
  (replicate 9 prober.Main ++
   [prober.DialReturns 3 (Some "connection refused"); prober.Attempt 3;
    prober.DialReturns 0 None; prober.Attempt 0; prober.Attempt 0;
    prober.Main])%list.

Definition state_refused : prober.state :=
  Eval vm_compute in default prober.init (prober.run schedule_refused prober.init).

(** A run in which the caller returns on the timeout before any attempt has
    reported, and attempt 0 connects afterwards. *)
Definition schedule_straggler : list prober.event :=
  (replicate 11 prober.Main ++
   [prober.DialReturns 0 None; prober.Attempt 0])%list.

Definition state_straggler : prober.state :=
  Eval vm_compute in default prober.init (prober.run schedule_straggler prober.init).


(** ** Further notions used in the statements *)

(** Every address of the map has an entry in the queue. *)
Definition keys_queued (r : RegisteredDecoys) : Prop :=
  forall k : string, is_Some (decoys r !! k) -> k ∈ decoy <$> decoysTimeouts r.

(** The clock readings of the calls do not decrease, and the first is
    not before [now]. *)
Fixpoint clock_from (now : Time) (calls : list (Time * call)) : Prop :=
  match calls with
  | [] => True
  | (t, _) :: calls' => (now <= t)%Z /\ clock_from t calls'
  end.

Module prober_history.
Import prober.

(** The attempts that have reported are those that have returned, each
    once. *)
Definition reports_ok (s : state) : Prop :=
  (forall (j : nat) (v : option error),
      (j, v) ∈ reported s ->
      exists a : attempt, attempts s !! j = Some a /\ pc a = Exited) /\
  NoDup (reported s).*1 /\
  length (reported s) + pending (attempts s) = length (attempts s).

(** What has been reported, what is about to be sent and what the caller
    has returned all come from dials of the run [evs]. *)
Definition history_ok (evs : list event) (s : state) : Prop :=
  (forall (j : nat) (v : option error),
      (j, v) ∈ reported s -> DialReturns j v ∈ evs) /\
  (forall (j : nat) (a : attempt),
      attempts s !! j = Some a ->
      match pc a with
      | AtSendErr e => DialReturns j (Some e) ∈ evs
      | AtClose | AtSendNil => DialReturns j None ∈ evs
      | AtDial | Exited => True
      end) /\
  match main s with
  | Returned true err => err = None /\ exists j : nat, (j, None) ∈ reported s
  | Returned false err =>
      err = Some timeout_error \/
      exists (j : nat) (e : error), err = Some e /\ (j, Some e) ∈ reported s
  | _ => True
  end.

(** The steps the caller has still to take. *)
Definition main_steps_left (m : main_pc) : nat :=
  match m with
  | Spawning i => (width - i) + 3
  | Sleeping => 2
  | AtSelect => 1
  | Returned _ _ => 0
  end.

(** The steps an attempt has still to take when its dial succeeds. *)
Definition steps_left (a : attempt) : nat :=
  match pc a with
  | AtDial => 3
  | AtClose => 2
  | AtSendErr _ | AtSendNil => 1
  | Exited => 0
  end.

Fixpoint all_steps_left (l : list attempt) : nat :=
  match l with
  | [] => 0
  | a :: l' => steps_left a + all_steps_left l'
  end.

End prober_history.

(** ** Further entities, managers and runs of the scenarios *)

(** A textual form of an address that tells addresses apart, for the
    scenarios: its hexadecimal text. *)
Definition example_IP_String (ip : IP) : string :=
  string_of_list_byte (hex.text ip).

(** The address 2001:db8::1. *)
Definition phantom_2001_db8__1 : IP :=
  [x20; x01; x0d; xb8; x00; x00; x00; x00; x00; x00; x00; x00; x00; x00; x00; x01].

Definition entity_2001_db8__1 : DecoyRegistration :=
  entity_of (Some phantom_2001_db8__1) (Some secret_deadbeef).

(** A manager as [NewRegistrationManager] builds it, with no selector. *)
Definition manager_new : RegistrationManager unit :=
  {| registeredDecoys := NewRegisteredDecoys;
     manager_Logger :=
       {| logger_out := "os.Stdout"; logger_prefix := "";
          logger_flag := log_Lmicroseconds |};
     DDSelector := None |}.

(** A selector that gives the address 10.0.0.5, and one that fails. *)
Definition select_10_0_0_5 (_ : option unit) (_ : list byte) (_ : Z) (_ : bool)
  : option IP * option error :=
  (Some phantom_10_0_0_5, None).

Definition select_fails (_ : option unit) (_ : list byte) (_ : Z) (_ : bool)
  : option IP * option error :=
  (None, Some "no subnet for this generation").

(** A run in which attempt 2 connects and reports before the caller
    reaches the [select], and the caller returns. *)
Definition schedule_live : list prober.event :=
  (replicate 9 prober.Main ++
   [prober.DialReturns 2 None; prober.Attempt 2; prober.Attempt 2;
    prober.Main; prober.Main])%list.

Definition state_live : prober.state :=
  Eval vm_compute in default prober.init (prober.run schedule_live prober.init).

(** ** The channel of the prober and the clock of the table's calls *)

Module prober_channel.
Import prober.

(** The channel holds, in order, the values sent that the caller has not
    received; the caller receives at most one, and none before it returns. *)
Definition channel_ok (s : state) : Prop :=
  exists received : list (option error),
    length received <= 1 /\
    (has_returned (main s) = false -> received = []) /\
    (reported s).*2 = (received ++ buf (dialError s))%list.

(** An attempt that has returned has reported. *)
Definition exited_reported (s : state) : Prop :=
  forall (j : nat) (a : attempt),
    attempts s !! j = Some a -> pc a = Exited ->
    exists v : option error, (j, v) ∈ reported s.

(** The reports of attempt [j], in order. *)
Definition reports_of (j : nat) (s : state) : list (nat * option error) :=
  filter (fun r => r.1 = j) (reported s).

(** Attempt [j] can send [v] at once: its step puts [v] at the end of the
    channel, which keeps its capacity, and the attempt returns, having
    reported [v] and nothing else; the caller is left as it is. *)
Definition deposits (s : state) (j : nat) (v : option error) : Prop :=
  exists s' : state,
    step (Attempt j) s = Some s' /\
    buf (dialError s') = (buf (dialError s) ++ [v])%list /\
    cap (dialError s') = cap (dialError s) /\
    (exists a' : attempt, attempts s' !! j = Some a' /\ pc a' = Exited) /\
    reports_of j s' = [(j, v)] /\
    main s' = main s.

End prober_channel.

(** The clock readings that [register] stamps (it reads the clock while it
    holds the lock) do not decrease along the calls, and the first is not
    before [bound]. Nothing is asked of the reading of a sweep, which is
    taken before the lock is, nor of a call that reads no clock. *)
Fixpoint register_clock_from (bound : Time) (calls : list (Time * call)) : Prop :=
  match calls with
  | [] => True
  | (t, CallRegister _ (Some _)) :: calls' =>
      (bound <= t)%Z /\ register_clock_from t calls'
  | _ :: calls' => register_clock_from bound calls'
  end.

(** The bound on the stamps of the queue after a call at [now]. *)
Definition bound_after (bound now : Time) (c : call) : Time :=
  match c with
  | CallRegister _ (Some _) => now
  | _ => bound
  end.

(** Four calls in the order in which they take the lock: the sweep has
    read the clock at 5 minutes 30, before the second registration stamped
    6 minutes. *)
Definition calls_with_late_sweep : list (Time * call) :=
  [(0%Z, CallRegister "10.0.0.5" (Some entity_10_0_0_5));
   ((6 * Minute)%Z, CallRegister "10.0.0.6" (Some entity_10_0_0_5));
   ((5 * Minute + 30 * Second)%Z, CallRemoveOld);
   ((7 * Minute)%Z, CallRegister "10.0.0.7" (Some entity_10_0_0_5))].

(** * Properties *)

(** ** Strings and hexadecimal text *)

Lemma append_empty_r (s : string) : s ++ "" = s.
Proof.
  induction s as [|c s IH]; [reflexivity|].
  change (String c (s ++ "") = String c s). now rewrite IH.
Qed.

Local Close Scope string_scope.

Lemma store_middle (pre post : list byte) (a b : byte) :
  hex.store (pre ++ a :: post) (length pre) b = Some (pre ++ b :: post).
Proof.
  unfold hex.store. rewrite decide_True.
  - f_equal. rewrite insert_app_r_alt by lia.
    now rewrite Nat.sub_diag.
  - rewrite length_app. simpl. lia.
Qed.

(** [Encode_loop] overwrites exactly the [2 * len(src)] bytes from [j] on. *)
Lemma Encode_loop_fills (src : list byte) :
  forall pre pad post : list byte,
    length pad = 2 * length src ->
    hex.Encode_loop src (length pre) (pre ++ pad ++ post)
    = Some (pre ++ hex.text src ++ post).
Proof.
  induction src as [|v src IH]; intros pre pad post Hlen.
  - destruct pad; [reflexivity | discriminate].
  - destruct pad as [|a [|b pad]]; simpl in Hlen; try lia.
    cbn [hex.Encode_loop app].
    set (x := hex.hexdigit (N.shiftr (Byte.to_N v) 4)).
    set (y := hex.hexdigit (N.land (Byte.to_N v) 15)).
    rewrite store_middle.
    replace (pre ++ x :: b :: pad ++ post) with ((pre ++ [x]) ++ b :: pad ++ post)
      by now rewrite <- app_assoc.
    replace (length pre + 1) with (length (pre ++ [x]))
      by (rewrite length_app; reflexivity).
    rewrite store_middle.
    replace ((pre ++ [x]) ++ y :: pad ++ post) with ((pre ++ [x; y]) ++ pad ++ post)
      by (rewrite <- !app_assoc; reflexivity).
    replace (length pre + 2) with (length (pre ++ [x; y]))
      by (rewrite length_app; simpl; lia).
    rewrite IH by lia.
    f_equal. rewrite <- app_assoc. reflexivity.
Qed.

(** Encoding into a buffer made of the encoded length fills it with the
    hexadecimal text and returns that length. *)
Lemma Encode_make (src : list byte) :
  hex.Encode (make_bytes (hex.EncodedLen (length src))) src
  = Some (hex.text src, length src * 2).
Proof.
  unfold hex.Encode.
  pose proof (Encode_loop_fills src [] (make_bytes (hex.EncodedLen (length src))) []) as H.
  cbn [app length] in H. rewrite !app_nil_r in H.
  rewrite H; [reflexivity|].
  unfold make_bytes, hex.EncodedLen. rewrite length_replicate. lia.
Qed.

Lemma length_hex_text (src : list byte) : length (hex.text src) = 2 * length src.
Proof.
  induction src as [|v src IH]; [reflexivity|].
  unfold hex.text in *. simpl. rewrite IH. lia.
Qed.

Local Open Scope string_scope.

Lemma Sprintf_s_bytes (b : list byte) :
  fmt.Sprintf "%s" [fmt.OBytes b] = Some (string_of_list_byte b).
Proof.
  change (Some (string_of_list_byte b ++ "") = Some (string_of_list_byte b)).
  now rewrite append_empty_r.
Qed.

Lemma Sprintf_v_string (s : string) :
  fmt.Sprintf "%v" [fmt.OString s] = Some s.
Proof.
  change (Some (s ++ "") = Some s).
  now rewrite append_empty_r.
Qed.

(** [%02x] of a [uint8] is its two hexadecimal digits. *)
Lemma verb_02x_uint8 (n : byte) :
  fmt.verb_02x (fmt.OUint8 n) = Some (string_of_list_byte (hex.digits n)).
Proof. destruct n; reflexivity. Qed.

(** ** The short identifier *)

(** C5. [IDString] gives "000000" for a [nil] entity, for an entity without
    key material and for a shared secret of fewer than 3 bytes; otherwise it
    gives the first 6 characters of the hexadecimal text of the secret. *)
Theorem IDString_degrades :
  DecoyRegistration_IDString None = Returns "000000" /\
  (forall r : DecoyRegistration,
      keys r = None ->
      DecoyRegistration_IDString (Some r) = Returns "000000") /\
  (forall (r : DecoyRegistration) (k : ConjureSharedKeys),
      keys r = Some k -> length (SharedSecret k) < 3 ->
      DecoyRegistration_IDString (Some r) = Returns "000000") /\
  (forall (r : DecoyRegistration) (k : ConjureSharedKeys),
      keys r = Some k -> 3 <= length (SharedSecret k) ->
      DecoyRegistration_IDString (Some r)
      = Returns (string_of_list_byte (take 6 (hex.text (SharedSecret k))))).
Proof.
  split; [reflexivity|]. split; [|split].
  - intros r Hk. unfold DecoyRegistration_IDString. now rewrite Hk.
  - intros r k Hk Hlen. unfold DecoyRegistration_IDString. rewrite Hk.
    cbv zeta. rewrite Encode_make. cbn [of_option obind].
    rewrite decide_True by lia. reflexivity.
  - intros r k Hk Hlen. unfold DecoyRegistration_IDString. rewrite Hk.
    cbv zeta. rewrite Encode_make. cbn [of_option obind].
    rewrite decide_False by lia.
    unfold slice_to. rewrite decide_True by (rewrite length_hex_text; lia).
    cbn [of_option obind]. now rewrite Sprintf_s_bytes.
Qed.

Lemma IDString_degrades_witness :
  DecoyRegistration_IDString (Some (entity_of None None)) = Returns "000000" /\
  DecoyRegistration_IDString (Some (entity_of None (Some secret_short)))
  = Returns "000000" /\
  DecoyRegistration_IDString (Some (entity_of None (Some secret_deadbeef)))
  = Returns "deadbe".
Proof.
  destruct IDString_degrades as (_ & Hnokeys & Hshort & Hlong).
  split; [|split].
  - apply Hnokeys. reflexivity.
  - apply (Hshort _ secret_short); [reflexivity | simpl; lia].
  - apply (Hlong _ secret_deadbeef); [reflexivity | simpl; lia].
Defined.

(** ** The digest *)

Section Digest.

Variable IP_String : IP -> string.

(** Past the first call, the budget plays no part for an entity that is
    there: [String] calls itself on a [nil] receiver only. *)
Lemma String_fuel_irrelevant (fuel : nat) (r : DecoyRegistration) :
  DecoyRegistration_String IP_String (S fuel) (Some r)
  = DecoyRegistration_String IP_String 1 (Some r).
Proof. reflexivity. Qed.

(** C2. On a [nil] entity [IDString] returns "000000", but [String] calls
    itself on the same [nil] receiver and so never returns, whatever the
    depth allowed. *)
Theorem String_nil_never_returns :
  DecoyRegistration_IDString None = Returns "000000" /\
  forall fuel : nat, DecoyRegistration_String IP_String fuel None = OutOfFuel.
Proof.
  split; [reflexivity|].
  induction fuel as [|fuel IH]; [reflexivity|].
  cbn [DecoyRegistration_String]. now rewrite IH.
Qed.

(** C6 (amended). For an entity with key material and a phantom address the
    digest is the five fields in the order phantom, covert, mask, flags and
    secret, the flags as their two hexadecimal digits and the secret as its
    whole hexadecimal text. *)
Theorem String_digest_format (fuel : nat) (r : DecoyRegistration)
    (k : ConjureSharedKeys) (ip : IP) :
  keys r = Some k ->
  DarkDecoy r = Some ip ->
  DecoyRegistration_String IP_String (S fuel) (Some r)
  = Returns ("{phantom=" ++ IP_String ip ++
             ", covert=" ++ Covert r ++
             ", mask=" ++ Mask r ++
             ", flags=0x" ++ string_of_list_byte (hex.digits (Flags r)) ++
             ", Shared Secret:" ++ string_of_list_byte (hex.text (SharedSecret k)) ++
             "}").
Proof.
  intros Hk Hip. cbn [DecoyRegistration_String]. rewrite Hk.
  cbv zeta. rewrite Encode_make. cbn [of_option obind].
  rewrite Hip. cbn [IP_ptr_String obind].
  unfold digest_format.
  cbn [fmt.Sprintf fmt.emit fmt.verb_v fmt.verb_s].
  rewrite verb_02x_uint8. reflexivity.
Qed.

End Digest.

Lemma String_digest_format_witness :
  DecoyRegistration_String (fun _ => "10.0.0.5") 1
    (Some (entity_of (Some [x0a; x00; x00; x05]) (Some secret_deadbeef)))
  = Returns "{phantom=10.0.0.5, covert=example.com, mask=decoy.test, flags=0x01, Shared Secret:deadbeef}".
Proof.
  exact (String_digest_format (fun _ => "10.0.0.5") 0
           (entity_of (Some [x0a; x00; x00; x05]) (Some secret_deadbeef))
           secret_deadbeef [x0a; x00; x00; x05] eq_refl eq_refl).
Defined.

(** C6, as stated, fails on an entity with key material whose phantom
    address pointer is [nil]: [reg.DarkDecoy.String()] faults. *)
Lemma String_without_phantom_panics :
  DecoyRegistration_String (fun _ => "10.0.0.5") 1
    (Some (entity_of None (Some secret_deadbeef)))
  = Panics.
Proof. reflexivity. Qed.

(** ** The table: registration and lookup *)

(** C7. [register] with a [nil] entity leaves the map and the queue as they
    were. *)
Theorem register_nil_noop (now : Time) (darkDecoyAddr : string)
    (r : RegisteredDecoys) :
  register now darkDecoyAddr None r = r /\
  decoys (register now darkDecoyAddr None r) = decoys r /\
  decoysTimeouts (register now darkDecoyAddr None r) = decoysTimeouts r.
Proof. repeat split. Qed.

Lemma register_all_snoc (calls : list (Time * string * option DecoyRegistration))
    (now : Time) (a : string) (d : option DecoyRegistration) (r : RegisteredDecoys) :
  register_all (calls ++ [(now, a, d)])%list r = register now a d (register_all calls r).
Proof. unfold register_all. now rewrite foldl_snoc. Qed.

Lemma lookup_register (now : Time) (a k : string) (d : option DecoyRegistration)
    (r : RegisteredDecoys) :
  decoys (register now a d r) !! k
  = match d with
    | Some e => if decide (a = k) then Some e else decoys r !! k
    | None => decoys r !! k
    end.
Proof.
  destruct d as [e|]; [|reflexivity]. cbn [register decoys].
  apply lookup_insert.
Qed.

Lemma lookup_register_all (calls : list (Time * string * option DecoyRegistration))
    (r : RegisteredDecoys) (k : string) :
  decoys (register_all calls r) !! k
  = match last (registrations_of k calls) with
    | Some e => Some e
    | None => decoys r !! k
    end.
Proof.
  induction calls as [|[[now a] d] calls IH] using rev_ind; [reflexivity|].
  rewrite register_all_snoc, lookup_register.
  unfold registrations_of in *. rewrite omap_app. cbn [omap].
  destruct d as [e|].
  - destruct (decide (a = k)) as [->|Hne].
    + cbn. rewrite decide_True by reflexivity. cbn. now rewrite last_snoc.
    + cbn. rewrite decide_False by assumption. cbn.
      rewrite app_nil_r. exact IH.
  - cbn. destruct (decide (a = k)); cbn; rewrite app_nil_r; exact IH.
Qed.

(** ** The table: the sweep *)

Lemma removeOld_loop_swept (cutoff : Time) (rest : list timeoutEntry) :
  forall (idx : nat) (m : gmap string DecoyRegistration),
    removeOld_loop cutoff rest idx m
    = (idx + length (swept cutoff rest), delete_all m (swept cutoff rest)).
Proof.
  induction rest as [|e rest IH]; intros idx m; cbn [removeOld_loop swept].
  - cbn. now rewrite Nat.add_0_r.
  - destruct (Time_After cutoff (registrationTime e)).
    + cbn. now rewrite Nat.add_0_r.
    + rewrite IH. cbn. f_equal. lia.
Qed.

Lemma removeOld_unfold (now : Time) (r : RegisteredDecoys) :
  removeOldRegistrations now r
  = {| decoys := delete_all (decoys r)
                   (swept (Time_Add now removeOld_timeout) (decoysTimeouts r));
       decoysTimeouts :=
         drop (length (swept (Time_Add now removeOld_timeout) (decoysTimeouts r)))
              (decoysTimeouts r) |}.
Proof.
  unfold removeOldRegistrations. rewrite removeOld_loop_swept. reflexivity.
Qed.

Lemma lookup_delete_all (l : list timeoutEntry) :
  forall (m : gmap string DecoyRegistration) (k : string),
    k ∈ decoy <$> l -> delete_all m l !! k = None.
Proof.
  unfold delete_all.
  induction l as [|e l IH] using rev_ind; intros m k Hin.
  - cbn in Hin. now apply elem_of_nil in Hin.
  - rewrite foldl_snoc. rewrite fmap_app in Hin. cbn in Hin.
    destruct (decide (decoy e = k)) as [->|Hne].
    + apply lookup_delete_eq.
    + rewrite lookup_delete_ne by assumption. apply IH.
      apply elem_of_app in Hin as [Hin|Hin]; [assumption|].
      apply list_elem_of_singleton in Hin. congruence.
Qed.

(** A sweep whose cutoff is after the head of the queue changes nothing. *)
Lemma removeOld_expired_head (now : Time) (r : RegisteredDecoys)
    (e : timeoutEntry) (q : list timeoutEntry) :
  decoysTimeouts r = e :: q ->
  (registrationTime e < now - 5 * Minute)%Z ->
  removeOldRegistrations now r = r.
Proof.
  intros Hq Hold. rewrite removeOld_unfold, Hq. cbn [swept].
  replace (Time_After (Time_Add now removeOld_timeout) (registrationTime e))
    with true.
  - cbn. destruct r; cbn in *. now subst.
  - symmetry. unfold Time_After, Time_Add, removeOld_timeout.
    apply Z.ltb_lt. lia.
Qed.

(** C1. The loop stops at the first entry that is older than the cutoff and
    deletes the entries that are not: an entry registered at 0 is still in
    the table after a sweep at 6 minutes, and is gone after a sweep at
    1 minute. *)
Theorem removeOld_keeps_expired_entry :
  removeOldRegistrations (6 * Minute)%Z table_registered_at_0
  = table_registered_at_0 /\
  decoys (removeOldRegistrations (6 * Minute)%Z table_registered_at_0) !! "10.0.0.5"
  = Some entity_10_0_0_5 /\
  decoys (removeOldRegistrations (1 * Minute)%Z table_registered_at_0) !! "10.0.0.5"
  = None.
Proof. repeat split; vm_compute; reflexivity. Qed.

Section TableProperties.

Variable IP_String : IP -> string.

(** C3 (amended). After a sequence of [register] calls on a new table,
    [checkRegistration] of an address returns the entity of the most recent
    call for that address that carried an entity, whatever the calls for
    other addresses, and [nil] when there is none; it returns [nil] for an
    address that a sweep has just deleted. *)
Theorem check_after_registers :
  (forall (calls : list (Time * string * option DecoyRegistration)) (ip : IP),
      checkRegistration IP_String (Some ip) (register_all calls NewRegisteredDecoys)
      = (Returns (last (registrations_of (IP_String ip) calls)),
         register_all calls NewRegisteredDecoys)) /\
  (forall (now : Time) (r : RegisteredDecoys) (ip : IP),
      IP_String ip ∈ evicted now r ->
      fst (checkRegistration IP_String (Some ip) (removeOldRegistrations now r))
      = Returns None).
Proof.
  split.
  - intros calls ip. unfold checkRegistration. cbn [IP_ptr_String obind].
    rewrite lookup_register_all. cbn [NewRegisteredDecoys decoys].
    rewrite lookup_empty. now destruct (last _).
  - intros now r ip Hin. unfold checkRegistration. cbn [IP_ptr_String obind fst].
    rewrite removeOld_unfold. cbn [decoys].
    now rewrite lookup_delete_all.
Qed.

End TableProperties.

Lemma check_after_registers_witness :
  fst (checkRegistration (fun _ => "10.0.0.5") (Some phantom_10_0_0_5)
         (removeOldRegistrations (1 * Minute)%Z table_registered_at_0))
  = Returns None.
Proof.
  apply (proj2 (check_after_registers (fun _ => "10.0.0.5"))).
  vm_compute. apply list_elem_of_here.
Defined.

(** C3, as stated, fails when the most recent call for the address passed a
    [nil] entity: the lookup still returns the entity of the call before. *)
Lemma check_after_nil_register :
  fst (checkRegistration (fun _ => "10.0.0.5") (Some phantom_10_0_0_5)
         (register_all [(0%Z, "10.0.0.5", Some entity_10_0_0_5);
                        (1%Z, "10.0.0.5", None)]
            NewRegisteredDecoys))
  = Returns (Some entity_10_0_0_5) /\
  most_recent_call "10.0.0.5"
    [(0%Z, "10.0.0.5", Some entity_10_0_0_5); (1%Z, "10.0.0.5", None)]
  = Some None.
Proof. split; vm_compute; reflexivity. Qed.

(** ** The order of the expiry queue *)

Lemma queue_sorted_snoc (q : list timeoutEntry) (e : timeoutEntry) :
  queue_sorted q ->
  (forall e' : timeoutEntry, e' ∈ q -> (registrationTime e' <= registrationTime e)%Z) ->
  queue_sorted (q ++ [e])%list.
Proof.
  intros Hs Hle i j ei ej Hij Hi Hj.
  apply lookup_app_Some in Hi as [Hi|[Hli Hi]];
    apply lookup_app_Some in Hj as [Hj|[Hlj Hj]].
  - eapply Hs; eassumption.
  - apply list_lookup_singleton_Some in Hj as [_ <-].
    apply Hle. eapply list_elem_of_lookup_2; eassumption.
  - apply lookup_lt_Some in Hj. lia.
  - apply list_lookup_singleton_Some in Hi as [_ <-].
    apply list_lookup_singleton_Some in Hj as [_ <-]. lia.
Qed.

Lemma queue_sorted_drop (q : list timeoutEntry) (n : nat) :
  queue_sorted q -> queue_sorted (drop n q).
Proof.
  intros Hs i j ei ej Hij Hi Hj. rewrite lookup_drop in Hi, Hj.
  apply (Hs (n + i) (n + j)); [lia | assumption..].
Qed.

(** ** The liveness prober *)

Import prober.

Lemma pending_snoc (l : list attempt) (a : attempt) :
  pending (l ++ [a])%list = pending l + weight a.
Proof.
  induction l as [|b l IH]; cbn; [lia|]. rewrite IH. lia.
Qed.

Lemma pending_insert (l : list attempt) :
  forall (j : nat) (a a' : attempt),
    l !! j = Some a ->
    pending (<[j := a']> l) + weight a = pending l + weight a'.
Proof.
  induction l as [|b l IH]; intros j a a' Hj; [discriminate|].
  destruct j as [|j]; simpl in *.
  - injection Hj as ->. lia.
  - specialize (IH j a a' Hj). lia.
Qed.

Lemma pending_lookup (l : list attempt) :
  forall (j : nat) (a : attempt), l !! j = Some a -> weight a <= pending l.
Proof.
  induction l as [|b l IH]; intros j a Hj; [discriminate|].
  destruct j as [|j]; cbn in *.
  - injection Hj as ->. lia.
  - specialize (IH j a Hj). lia.
Qed.

Lemma inv_init : inv init.
Proof.
  unfold inv, init. cbn.
  repeat split; first [lia | now constructor | now intros _].
Qed.

Ltac width_lia := unfold width in *; lia.

(** Every step keeps the invariant. *)
Lemma inv_step_main (s s' : state) : inv s -> step_main s = Some s' -> inv s'.
Proof.
  intros (Hcap & Hroom & Hsp & Hok & Hrep) Hstep.
  unfold step_main in Hstep. destruct (main s) as [i| | |live e] eqn:Hm.
  - cbn [to_spawn spawned has_returned] in *. destruct Hsp as [Hlen Hi].
    destruct (decide (i < width)); injection Hstep as <-;
      unfold inv; cbn [dialError attempts main reported to_spawn spawned has_returned].
    + rewrite pending_snoc, length_app. cbn [length weight pc].
      repeat split; try width_lia; try assumption.
      apply Forall_app. split; [assumption|]. repeat constructor.
    + repeat split; try width_lia; assumption.
  - injection Hstep as <-. unfold inv.
    cbn [dialError attempts main reported to_spawn spawned has_returned] in *.
    repeat split; try width_lia; assumption.
  - unfold try_recv in Hstep.
    cbn [to_spawn spawned has_returned] in *.
    destruct (buf (dialError s)) as [|v rest] eqn:Hbuf.
    + cbn in Hstep. injection Hstep as <-. unfold inv.
      cbn [dialError attempts main reported to_spawn spawned has_returned].
      rewrite Hbuf. cbn [length] in *.
      repeat split; try width_lia; try assumption; try discriminate.
    + destruct v as [e|]; cbn in Hstep; injection Hstep as <-;
        unfold inv;
        cbn [dialError attempts main reported to_spawn spawned has_returned cap buf];
        cbn [length] in *;
        (repeat split; try width_lia; try assumption; try discriminate).
  - discriminate.
Qed.

Lemma inv_set_attempt (s : state) (j : nat) (a a' : attempt) :
  inv s -> attempts s !! j = Some a ->
  weight a' = weight a -> attempt_ok a' ->
  inv (set_attempt s j a').
Proof.
  intros (Hcap & Hroom & Hsp & Hok & Hrep) Hj Hw Ha.
  pose proof (pending_insert _ j a a' Hj) as Hp.
  unfold inv, set_attempt. cbn [dialError attempts main reported].
  rewrite length_insert.
  repeat split; try assumption; try lia.
  now apply Forall_insert.
Qed.

Lemma inv_step_send (s s' : state) (j : nat) (a : attempt) (v : option error) :
  inv s -> attempts s !! j = Some a ->
  weight a = 1 -> deposited a = 0 ->
  step_send s j a v = Some s' -> inv s'.
Proof.
  intros (Hcap & Hroom & Hsp & Hok & Hrep) Hj Hw Hd Hstep.
  unfold step_send, send in Hstep.
  destruct (decide (length (buf (dialError s)) < cap (dialError s))); [|discriminate].
  injection Hstep as <-.
  pose proof (pending_insert _ j a {| pc := Exited; deposited := deposited a + 1 |} Hj) as Hp.
  unfold inv. cbn [dialError attempts main reported cap buf].
  rewrite length_insert, length_app. cbn [length].
  cbn [weight pc] in Hp.
  repeat split; try assumption; try lia.
  - apply Forall_insert; [assumption|]. unfold attempt_ok. cbn. lia.
  - intros Hr. rewrite fmap_app, (Hrep Hr). reflexivity.
Qed.

Lemma inv_step (ev : event) (s s' : state) :
  inv s -> step ev s = Some s' -> inv s'.
Proof.
  intros Hinv Hstep.
  destruct ev as [|j err|j]; cbn [step] in Hstep.
  - eapply inv_step_main; eassumption.
  - destruct (attempts s !! j) as [a|] eqn:Hj; [|discriminate].
    assert (Ha : attempt_ok a).
    { destruct Hinv as (_ & _ & _ & Hok & _). eapply Forall_lookup_1; eassumption. }
    unfold attempt_ok in Ha.
    destruct (pc a) eqn:Hpc; try discriminate.
    destruct err as [e|]; injection Hstep as <-;
      (eapply inv_set_attempt; [eassumption..| |]);
      unfold weight, attempt_ok; rewrite ?Hpc; cbn; auto.
  - destruct (attempts s !! j) as [a|] eqn:Hj; [|discriminate].
    assert (Ha : attempt_ok a).
    { destruct Hinv as (_ & _ & _ & Hok & _). eapply Forall_lookup_1; eassumption. }
    unfold attempt_ok in Ha.
    destruct (pc a) eqn:Hpc; try discriminate.
    + eapply inv_step_send; try eassumption. unfold weight. now rewrite Hpc.
    + injection Hstep as <-.
      eapply inv_set_attempt; [eassumption..| |];
        unfold weight, attempt_ok; rewrite ?Hpc; cbn; auto.
    + eapply inv_step_send; try eassumption. unfold weight. now rewrite Hpc.
Qed.

Lemma inv_run (evs : list event) :
  forall s s' : state, inv s -> run evs s = Some s' -> inv s'.
Proof.
  induction evs as [|ev evs IH]; intros s s' Hinv Hrun; cbn [run] in Hrun.
  - now injection Hrun as <-.
  - destruct (step ev s) as [s1|] eqn:Hstep; [|discriminate].
    eapply IH; [|eassumption]. eapply inv_step; eassumption.
Qed.

(** C4. At the [select] the caller always has a step, which takes at most
    one value from the channel and returns: live with no error when the
    first report is a success, not live with the error of the first report
    when that is a failure, not live with the timeout error when nothing
    has been reported; having returned, it does not look again. *)
Theorem select_decides (evs : list event) (s : state) :
  run evs init = Some s ->
  main s = AtSelect ->
  exists s' : state,
    step Main s = Some s' /\
    main s' = match reported s with
              | [] => Returned false (Some timeout_error)
              | (_, None) :: _ => Returned true None
              | (_, Some err) :: _ => Returned false (Some err)
              end /\
    buf (dialError s') = tail (buf (dialError s)) /\
    step Main s' = None.
Proof.
  intros Hrun Hm.
  pose proof (inv_run evs init s inv_init Hrun) as (_ & _ & _ & _ & Hrep).
  rewrite Hm in Hrep. specialize (Hrep eq_refl).
  cbn [step]. unfold step_main, try_recv. rewrite Hm, Hrep.
  destruct (reported s) as [|[j [e|]] rep]; cbn;
    eexists; (split; [reflexivity|]); cbn; rewrite ?Hrep; cbn; auto.
Qed.

Lemma select_decides_witness :
  exists s' : state,
    step Main state_refused = Some s' /\
    main s' = Returned false (Some "connection refused").
Proof.
  destruct (select_decides schedule_refused state_refused eq_refl eq_refl)
    as (s' & Hstep & Hmain & _).
  exists s'. split; assumption.
Defined.

(** ** The manager's constructor *)

(** C10. When the selector cannot be built the constructor returns [nil]
    and writes nothing, whatever the error was; the error value it formats
    from the cause is built and then dropped. *)
Theorem NewRegistrationManager_drops_error (DDIpSelector : Type)
    (d : option DDIpSelector) (e : error) :
  NewRegistrationManager DDIpSelector d (Some e) = (Returns None, []) /\
  fmt_Errorf selector_error_format e
  = Some ("Failed to create the DDIpSelector Object: " ++ e ++ String "010" "").
Proof.
  split; [reflexivity|].
  unfold fmt_Errorf, selector_error_format.
  change (Some ("Failed to create the DDIpSelector Object: "
                ++ e ++ String "010" "")
          = Some ("Failed to create the DDIpSelector Object: "
                  ++ e ++ String "010" "")).
  reflexivity.
Qed.

(** * Further properties *)

(** ** More on the sweep *)

Lemma Time_After_spec (t u : Time) : Time_After t u = true <-> (u < t)%Z.
Proof. unfold Time_After. apply Z.ltb_lt. Qed.

(** The entries at which the loop does not stop are those that, with all
    the entries before them, are not older than the cutoff. *)
Lemma swept_lookup (cutoff : Time) (q : list timeoutEntry) :
  forall (i : nat) (e : timeoutEntry),
    swept cutoff q !! i = Some e <->
    q !! i = Some e /\
    forall (j : nat) (e' : timeoutEntry),
      j <= i -> q !! j = Some e' -> (cutoff <= registrationTime e')%Z.
Proof.
  induction q as [|h q IH]; intros i e; cbn [swept].
  - split; [discriminate | intros [H _]; discriminate].
  - destruct (Time_After cutoff (registrationTime h)) eqn:Hh.
    + apply Time_After_spec in Hh. split; [discriminate|].
      intros [_ Hall]. specialize (Hall 0 h ltac:(lia) eq_refl). lia.
    + assert (Hge : (cutoff <= registrationTime h)%Z).
      { destruct (Z.lt_ge_cases (registrationTime h) cutoff) as [Hlt|Hge];
          [|assumption].
        apply Time_After_spec in Hlt. congruence. }
      destruct i as [|i]; cbn.
      * split.
        -- intros [= <-]. split; [reflexivity|].
           intros j e' Hj He'. assert (j = 0) as -> by lia.
           cbn in He'. now injection He' as <-.
        -- intros [Hi _]. exact Hi.
      * rewrite IH. split; intros [Hi Hall]; (split; [exact Hi|]).
        -- intros [|j] e' Hj He'; cbn in He'.
           ++ now injection He' as <-.
           ++ apply (Hall j e'); [lia | assumption].
        -- intros j e' Hj He'. apply (Hall (S j) e'); [lia | assumption].
Qed.

Lemma lookup_delete_all_notin (l : list timeoutEntry) :
  forall (m : gmap string DecoyRegistration) (k : string),
    k ∉ decoy <$> l -> delete_all m l !! k = m !! k.
Proof.
  unfold delete_all.
  induction l as [|e l IH] using rev_ind; intros m k Hin; [reflexivity|].
  rewrite foldl_snoc. rewrite fmap_app in Hin. cbn in Hin.
  rewrite lookup_delete_ne.
  - apply IH. intros H. apply Hin. apply elem_of_app. now left.
  - intros <-. apply Hin. apply elem_of_app. right. apply list_elem_of_here.
Qed.

(** X1. After a sweep an address is absent from the map when the queue
    had an entry for it such that this entry and all the entries before it
    were registered at or after [now - 5 minutes]; every other address is
    looked up as before the sweep. *)
Theorem sweep_lookup (now : Time) (r : RegisteredDecoys) (k : string) :
  let swept_entry :=
    exists (i : nat) (e : timeoutEntry),
      decoysTimeouts r !! i = Some e /\ decoy e = k /\
      forall (j : nat) (e' : timeoutEntry),
        j <= i -> decoysTimeouts r !! j = Some e' ->
        (now - 5 * Minute <= registrationTime e')%Z in
  (swept_entry -> decoys (removeOldRegistrations now r) !! k = None) /\
  (~ swept_entry -> decoys (removeOldRegistrations now r) !! k = decoys r !! k).
Proof.
  cbv zeta. rewrite removeOld_unfold. cbn [decoys].
  assert (Hcut : Time_Add now removeOld_timeout = (now - 5 * Minute)%Z)
    by (unfold Time_Add, removeOld_timeout; lia).
  rewrite Hcut. split.
  - intros (i & e & Hi & Hk & Hall). apply lookup_delete_all.
    apply list_elem_of_fmap. exists e. split; [now symmetry|].
    apply list_elem_of_lookup. exists i. apply swept_lookup. now split.
  - intros Hno. apply lookup_delete_all_notin. intros Hin.
    apply list_elem_of_fmap in Hin as (e & Hk & He).
    apply list_elem_of_lookup in He as [i Hi].
    apply swept_lookup in Hi as [Hi Hall].
    apply Hno. exists i, e. repeat split; [assumption | now symmetry | assumption].
Qed.

Lemma sweep_lookup_witness :
  decoys (removeOldRegistrations (1 * Minute)%Z table_registered_at_0) !! "10.0.0.5"
  = None /\
  decoys (removeOldRegistrations (6 * Minute)%Z table_registered_at_0) !! "10.0.0.5"
  = decoys table_registered_at_0 !! "10.0.0.5".
Proof.
  split.
  - apply (proj1 (sweep_lookup (1 * Minute)%Z table_registered_at_0 "10.0.0.5")).
    exists 0, {| decoy := "10.0.0.5"; registrationTime := 0%Z |}.
    split; [reflexivity|]. split; [reflexivity|].
    intros [|j] e' Hj He'; [|lia]. injection He' as <-. vm_compute. discriminate.
  - apply (proj2 (sweep_lookup (6 * Minute)%Z table_registered_at_0 "10.0.0.5")).
    intros (i & e & _ & _ & Hall).
    specialize (Hall 0 {| decoy := "10.0.0.5"; registrationTime := 0%Z |}
                  ltac:(lia) eq_refl).
    vm_compute in Hall. now apply Hall.
Defined.

(** After a sweep the queue is empty or begins with an entry older than
    the cutoff, so the loop of a sweep with the same or a later cutoff
    stops at once. *)
Lemma swept_rest_nil (cutoff cutoff' : Time) (q : list timeoutEntry) :
  (cutoff <= cutoff')%Z ->
  swept cutoff' (drop (length (swept cutoff q)) q) = [].
Proof.
  intros Hle. induction q as [|h q IH]; [reflexivity|].
  cbn [swept]. destruct (Time_After cutoff (registrationTime h)) eqn:Hh.
  - cbn. replace (Time_After cutoff' (registrationTime h)) with true; [reflexivity|].
    symmetry. apply Time_After_spec. apply Time_After_spec in Hh. lia.
  - cbn. exact IH.
Qed.

(** X2. A sweep made after another one, at the same or a later time,
    changes nothing. *)
Theorem sweep_again_noop (now now' : Time) (r : RegisteredDecoys) :
  (now <= now')%Z ->
  removeOldRegistrations now' (removeOldRegistrations now r)
  = removeOldRegistrations now r.
Proof.
  intros Hle. rewrite (removeOld_unfold now' (removeOldRegistrations now r)).
  rewrite (removeOld_unfold now r). cbn [decoys decoysTimeouts].
  rewrite swept_rest_nil by (unfold Time_Add; lia).
  reflexivity.
Qed.

Lemma sweep_again_noop_witness :
  removeOldRegistrations (9 * Minute)%Z
    (removeOldRegistrations (1 * Minute)%Z table_registered_at_0)
  = removeOldRegistrations (1 * Minute)%Z table_registered_at_0.
Proof. apply sweep_again_noop. vm_compute. discriminate. Defined.

Lemma swept_all (cutoff : Time) (q : list timeoutEntry) :
  (forall e : timeoutEntry, e ∈ q -> (cutoff <= registrationTime e)%Z) ->
  swept cutoff q = q.
Proof.
  induction q as [|h q IH]; intros Hall; [reflexivity|].
  cbn [swept]. replace (Time_After cutoff (registrationTime h)) with false.
  - f_equal. apply IH. intros e He. apply Hall. now apply list_elem_of_further.
  - symmetry. apply not_true_is_false. intros H. apply Time_After_spec in H.
    specialize (Hall h (list_elem_of_here _ _)). lia.
Qed.

(** On a queue in time order the loop stops at once or runs to the end. *)
Lemma swept_sorted (cutoff : Time) (q : list timeoutEntry) :
  queue_sorted q -> swept cutoff q = [] \/ swept cutoff q = q.
Proof.
  intros Hs. destruct q as [|h q]; [now left|].
  destruct (Time_After cutoff (registrationTime h)) eqn:Hh.
  - left. cbn [swept]. now rewrite Hh.
  - right. apply swept_all. intros e He.
    apply list_elem_of_lookup in He as [i Hi].
    specialize (Hs 0 i h e ltac:(lia) eq_refl Hi).
    destruct (Z.lt_ge_cases (registrationTime h) cutoff) as [Hlt|Hge]; [|lia].
    apply Time_After_spec in Hlt. congruence.
Qed.

(** On a queue in time order that lists every address of the map, a sweep
    changes nothing or empties the table. *)
Lemma sweep_all_or_nothing (now : Time) (r : RegisteredDecoys) :
  queue_sorted (decoysTimeouts r) ->
  (forall k : string,
      is_Some (decoys r !! k) -> k ∈ decoy <$> decoysTimeouts r) ->
  removeOldRegistrations now r = r \/
  removeOldRegistrations now r = NewRegisteredDecoys.
Proof.
  intros Hs Hdom. rewrite removeOld_unfold.
  destruct (swept_sorted (Time_Add now removeOld_timeout) _ Hs) as [-> | ->].
  - left. destruct r; reflexivity.
  - right. unfold NewRegisteredDecoys. f_equal.
    + apply map_eq. intros k. rewrite lookup_empty.
      destruct (decide (k ∈ decoy <$> decoysTimeouts r)) as [Hin|Hout].
      * now apply lookup_delete_all.
      * rewrite lookup_delete_all_notin by assumption.
        destruct (decoys r !! k) eqn:Hk; [|reflexivity].
        exfalso. apply Hout, Hdom. now rewrite Hk.
    + apply drop_all.
Qed.

Lemma swept_prefix (cutoff : Time) (q : list timeoutEntry) :
  (swept cutoff q ++ drop (length (swept cutoff q)) q)%list = q.
Proof.
  induction q as [|h q IH]; [reflexivity|].
  cbn [swept]. destruct (Time_After cutoff (registrationTime h)); [reflexivity|].
  cbn. now rewrite IH.
Qed.

Section Reachable.

Variable IP_String : IP -> string.

Lemma exec_all_snoc (calls : list (Time * call)) (now : Time) (c : call)
    (r : RegisteredDecoys) :
  exec_all IP_String (calls ++ [(now, c)])%list r
  = exec IP_String now c (exec_all IP_String calls r).
Proof. unfold exec_all. now rewrite foldl_snoc. Qed.

Lemma keys_queued_exec (now : Time) (c : call) (r : RegisteredDecoys) :
  keys_queued r -> keys_queued (exec IP_String now c r).
Proof.
  intros Hr. destruct c as [a [d|]|a|]; cbn [exec register checkRegistration snd];
    try assumption.
  - intros k Hk. cbn [decoys decoysTimeouts] in *.
    rewrite fmap_app. apply elem_of_app.
    destruct (decide (a = k)) as [->|Hne].
    + right. apply list_elem_of_here.
    + left. apply Hr. now rewrite lookup_insert_ne in Hk.
  - intros k Hk. rewrite removeOld_unfold in *. cbn [decoys decoysTimeouts] in *.
    set (c := Time_Add now removeOld_timeout) in *.
    destruct (decide (k ∈ decoy <$> swept c (decoysTimeouts r))) as [Hin|Hout].
    + rewrite lookup_delete_all in Hk by assumption. now destruct Hk.
    + rewrite lookup_delete_all_notin in Hk by assumption.
      specialize (Hr k Hk). rewrite <- (swept_prefix c (decoysTimeouts r)) in Hr.
      rewrite fmap_app in Hr. apply elem_of_app in Hr as [Hr|Hr];
        [contradiction | assumption].
Qed.

(** X5. In every table built from a new one by a sequence of calls, each
    address that is in the map has an entry in the queue. *)
Theorem registered_are_queued (calls : list (Time * call)) (k : string) :
  is_Some (decoys (exec_all IP_String calls NewRegisteredDecoys) !! k) ->
  k ∈ decoy <$> decoysTimeouts (exec_all IP_String calls NewRegisteredDecoys).
Proof.
  revert k. change (keys_queued (exec_all IP_String calls NewRegisteredDecoys)).
  induction calls as [|[now c] calls IH] using rev_ind.
  - intros k [v Hk]. cbn in Hk. rewrite lookup_empty in Hk. discriminate.
  - rewrite exec_all_snoc. now apply keys_queued_exec.
Qed.

(** X3. Once the first entry of the queue is older than the cutoff, no
    call made from then on takes anything out: the queue keeps all its
    entries and every address that was registered stays registered. *)
Theorem expired_head_blocks (now : Time) (r : RegisteredDecoys)
    (e : timeoutEntry) (q : list timeoutEntry) (calls : list (Time * call)) :
  decoysTimeouts r = e :: q ->
  (registrationTime e < now - 5 * Minute)%Z ->
  Forall (fun tc => (now <= tc.1)%Z) calls ->
  decoysTimeouts r `prefix_of` decoysTimeouts (exec_all IP_String calls r) /\
  forall k : string,
    is_Some (decoys r !! k) ->
    is_Some (decoys (exec_all IP_String calls r) !! k).
Proof.
  intros Hq Hold Hcalls.
  induction calls as [|[t c] calls IH] using rev_ind.
  - split; [reflexivity | auto].
  - apply List.Forall_app in Hcalls as [Hcalls Ht].
    apply Forall_inv in Ht. cbn in Ht.
    destruct (IH Hcalls) as [Hpre Hdom]. clear IH.
    rewrite exec_all_snoc. set (r' := exec_all IP_String calls r) in *.
    destruct c as [a [d|]|a|]; cbn [exec register checkRegistration snd];
      try (split; assumption).
    + cbn [decoys decoysTimeouts]. split.
      * etransitivity; [exact Hpre|]. now apply prefix_app_r.
      * intros k Hk. destruct (decide (a = k)) as [->|Hne].
        -- rewrite lookup_insert_eq. eauto.
        -- rewrite lookup_insert_ne by assumption. now apply Hdom.
    + destruct Hpre as [q' Hq']. rewrite Hq in Hq'. cbn in Hq'.
      rewrite (removeOld_expired_head t r' e (q ++ q')%list Hq') by lia.
      split; [|assumption]. rewrite Hq. exists q'. exact Hq'.
Qed.

Lemma queue_ok_exec (now now' : Time) (c : call) (r : RegisteredDecoys) :
  queue_ok now r -> (now <= now')%Z -> queue_ok now' (exec IP_String now' c r).
Proof.
  intros [Hs Hle] Hclock.
  assert (Hle' : forall e : timeoutEntry,
             e ∈ decoysTimeouts r -> (registrationTime e <= now')%Z).
  { intros e He. specialize (Hle e He). lia. }
  destruct c as [a [d|]|a|]; cbn [exec register checkRegistration snd];
    try (split; assumption).
  - split; cbn [decoysTimeouts].
    + apply queue_sorted_snoc; [assumption|]. cbn. exact Hle'.
    + intros e He. apply elem_of_app in He as [He|He]; [now apply Hle'|].
      apply list_elem_of_singleton in He. subst e. cbn. lia.
  - rewrite removeOld_unfold. split; cbn [decoysTimeouts].
    + now apply queue_sorted_drop.
    + intros e He. apply Hle'. exact (subseteq_drop _ _ e He).
Qed.

Lemma invariants_exec_all (calls : list (Time * call)) :
  forall (now : Time) (r : RegisteredDecoys),
    queue_ok now r -> keys_queued r -> clock_from now calls ->
    queue_sorted (decoysTimeouts (exec_all IP_String calls r)) /\
    keys_queued (exec_all IP_String calls r).
Proof.
  induction calls as [|[t c] calls IH]; intros now r Hok Hkeys Hclock.
  - split; [exact (proj1 Hok) | exact Hkeys].
  - destruct Hclock as [Ht Hclock].
    change (exec_all IP_String ((t, c) :: calls) r)
      with (exec_all IP_String calls (exec IP_String t c r)).
    apply (IH t); [now apply (queue_ok_exec now) | now apply keys_queued_exec
                   | assumption].
Qed.

(** X4. On a table built from a new one by calls whose clock readings do
    not decrease, a sweep at any time changes nothing or leaves the table
    empty, map and queue. *)
Theorem sweep_keeps_or_empties (start now : Time) (calls : list (Time * call)) :
  clock_from start calls ->
  removeOldRegistrations now (exec_all IP_String calls NewRegisteredDecoys)
  = exec_all IP_String calls NewRegisteredDecoys \/
  removeOldRegistrations now (exec_all IP_String calls NewRegisteredDecoys)
  = NewRegisteredDecoys.
Proof.
  intros Hclock.
  destruct (invariants_exec_all calls start NewRegisteredDecoys) as [Hs Hk];
    try assumption.
  - split.
    + intros i j ei ej _ Hi. cbn in Hi. discriminate.
    + intros e He. cbn in He. now apply elem_of_nil in He.
  - intros k [v Hk]. cbn in Hk. rewrite lookup_empty in Hk. discriminate.
  - now apply sweep_all_or_nothing.
Qed.

End Reachable.

Lemma sweep_keeps_or_empties_witness :
  removeOldRegistrations (9 * Minute)%Z
    (exec_all (fun _ => "10.0.0.5")
       [(0%Z, CallRegister "10.0.0.5" (Some entity_10_0_0_5));
        ((6 * Minute)%Z, CallRegister "10.0.0.6" (Some entity_10_0_0_5))]
       NewRegisteredDecoys)
  = exec_all (fun _ => "10.0.0.5")
       [(0%Z, CallRegister "10.0.0.5" (Some entity_10_0_0_5));
        ((6 * Minute)%Z, CallRegister "10.0.0.6" (Some entity_10_0_0_5))]
       NewRegisteredDecoys \/
  removeOldRegistrations (9 * Minute)%Z
    (exec_all (fun _ => "10.0.0.5")
       [(0%Z, CallRegister "10.0.0.5" (Some entity_10_0_0_5));
        ((6 * Minute)%Z, CallRegister "10.0.0.6" (Some entity_10_0_0_5))]
       NewRegisteredDecoys)
  = NewRegisteredDecoys.
Proof.
  apply (sweep_keeps_or_empties (fun _ => "10.0.0.5") 0%Z).
  cbn. repeat split; vm_compute; discriminate.
Defined.

Lemma registered_are_queued_witness :
  "10.0.0.5" ∈ decoy <$> decoysTimeouts
     (exec_all (fun _ => "10.0.0.5")
        [(0%Z, CallRegister "10.0.0.5" (Some entity_10_0_0_5))]
        NewRegisteredDecoys).
Proof.
  apply registered_are_queued. vm_compute. eauto.
Defined.

Lemma expired_head_blocks_witness :
  decoysTimeouts table_registered_at_0
  `prefix_of`
  decoysTimeouts
    (exec_all (fun _ => "10.0.0.5")
       [((6 * Minute)%Z, CallRemoveOld);
        ((7 * Minute)%Z, CallRegister "10.0.0.6" (Some entity_10_0_0_5));
        ((20 * Minute)%Z, CallRemoveOld)]
       table_registered_at_0).
Proof.
  refine (proj1 (expired_head_blocks (fun _ => "10.0.0.5") (6 * Minute)%Z
                   table_registered_at_0
                   {| decoy := "10.0.0.5"; registrationTime := 0%Z |} []
                   _ eq_refl _ _)).
  - vm_compute. reflexivity.
  - repeat constructor; vm_compute; discriminate.
Defined.

(** ** More on the identifier and the digest *)

Lemma string_of_list_byte_app (l1 l2 : list byte) :
  string_of_list_byte (l1 ++ l2)%list
  = string_of_list_byte l1 ++ string_of_list_byte l2.
Proof.
  unfold string_of_list_byte.
  induction l1 as [|b l1 IH]; [reflexivity|].
  cbn [List.map app string_of_list_ascii]. rewrite IH. reflexivity.
Qed.

Lemma string_app_assoc (a b c : string) : (a ++ b) ++ c = a ++ (b ++ c).
Proof.
  induction a as [|x a IH]; [reflexivity|].
  change (String x ((a ++ b) ++ c) = String x (a ++ (b ++ c))). now rewrite IH.
Qed.

Lemma hexdigit_in_table (i : N) :
  (i < 16)%N -> In (hex.hexdigit i) hex.hextable.
Proof.
  intros Hi. unfold hex.hexdigit. apply nth_In.
  change (length hex.hextable) with 16. lia.
Qed.

Lemma digits_in_table (v : byte) :
  Forall (fun c => In c hex.hextable) (hex.digits v).
Proof.
  unfold hex.digits.
  apply Forall_cons. split; [|apply Forall_cons; split; [|apply Forall_nil_2]];
    apply hexdigit_in_table; destruct v; reflexivity.
Qed.

Lemma text_in_table (src : list byte) :
  Forall (fun c => In c hex.hextable) (hex.text src).
Proof.
  unfold hex.text. induction src as [|v src IH]; [constructor|].
  cbn [flat_map]. apply Forall_app. split; [apply digits_in_table | exact IH].
Qed.

(** X6. [IDString] returns on every receiver, [nil] included, and what it
    returns is always 6 characters out of [0123456789abcdef]. *)
Theorem IDString_six_hex_digits (reg : option DecoyRegistration) :
  exists id : list byte,
    DecoyRegistration_IDString reg = Returns (string_of_list_byte id) /\
    length id = 6 /\
    Forall (fun c => In c hex.hextable) id.
Proof.
  assert (Hzero : exists id : list byte,
             Returns "000000" = Returns (string_of_list_byte id) /\
             length id = 6 /\ Forall (fun c => In c hex.hextable) id).
  { exists (list_byte_of_string "000000"). split; [reflexivity|].
    split; [reflexivity|]. apply Forall_forall. intros c Hc.
    apply list_elem_of_In in Hc. cbn in Hc. cbn. intuition. }
  destruct reg as [r|]; [|exact Hzero].
  unfold DecoyRegistration_IDString.
  destruct (keys r) as [k|]; [|exact Hzero].
  cbv zeta. rewrite Encode_make. cbn [of_option obind].
  destruct (decide (length (SharedSecret k) * 2 < 6)) as [Hlt|Hge]; [exact Hzero|].
  unfold slice_to. rewrite decide_True by (rewrite length_hex_text; lia).
  cbn [of_option obind]. rewrite Sprintf_s_bytes. cbn [of_option].
  exists (take 6 (hex.text (SharedSecret k))). split; [reflexivity|]. split.
  - rewrite length_take, length_hex_text. lia.
  - apply Forall_take. apply text_in_table.
Qed.

Section DigestMore.

Variable IP_String : IP -> string.

(** The digest of an entity that has key material and a phantom address. *)
Lemma String_of_complete (fuel : nat) (r : DecoyRegistration)
    (k : ConjureSharedKeys) (ip : IP) (secret : list byte) :
  keys r = Some k -> DarkDecoy r = Some ip ->
  secret = hex.text (SharedSecret k) ->
  DecoyRegistration_String IP_String (S fuel) (Some r)
  = Returns (("{phantom=" ++ IP_String ip ++ ", covert=" ++ Covert r ++
              ", mask=" ++ Mask r ++ ", flags=0x" ++
              string_of_list_byte (hex.digits (Flags r)) ++ ", ") ++
             "Shared Secret:" ++ string_of_list_byte secret ++ "}").
Proof.
  intros Hk Hip ->. cbn [DecoyRegistration_String]. rewrite Hk.
  cbv zeta. rewrite Encode_make. cbn [of_option obind].
  rewrite Hip. cbn [IP_ptr_String obind]. unfold digest_format.
  cbn [fmt.Sprintf fmt.emit fmt.verb_v fmt.verb_s].
  rewrite verb_02x_uint8. cbn [of_option fmt.emit]. f_equal.
  rewrite !string_app_assoc. reflexivity.
Qed.

(** X7. For an entity with a phantom address and a secret of at least
    3 bytes, the identifier is what follows [Shared Secret:] in the digest. *)
Theorem IDString_prefix_of_digest_secret (fuel : nat) (r : DecoyRegistration)
    (k : ConjureSharedKeys) (ip : IP) :
  keys r = Some k -> DarkDecoy r = Some ip ->
  3 <= length (SharedSecret k) ->
  exists id before after : string,
    DecoyRegistration_IDString (Some r) = Returns id /\
    DecoyRegistration_String IP_String (S fuel) (Some r)
    = Returns (before ++ "Shared Secret:" ++ id ++ after).
Proof.
  intros Hk Hip Hlen.
  exists (string_of_list_byte (take 6 (hex.text (SharedSecret k)))).
  exists ("{phantom=" ++ IP_String ip ++ ", covert=" ++ Covert r ++
          ", mask=" ++ Mask r ++ ", flags=0x" ++
          string_of_list_byte (hex.digits (Flags r)) ++ ", ").
  exists (string_of_list_byte (drop 6 (hex.text (SharedSecret k))) ++ "}").
  split.
  - unfold DecoyRegistration_IDString. rewrite Hk.
    cbv zeta. rewrite Encode_make. cbn [of_option obind].
    rewrite decide_False by lia.
    unfold slice_to. rewrite decide_True by (rewrite length_hex_text; lia).
    cbn [of_option obind]. now rewrite Sprintf_s_bytes.
  - rewrite (String_of_complete fuel r k ip _ Hk Hip eq_refl).
    do 3 f_equal.
    rewrite <- (take_drop 6 (hex.text (SharedSecret k))) at 1.
    rewrite string_of_list_byte_app. apply string_app_assoc.
Qed.

(** X8. On an entity that is there, [String] returns exactly when the
    entity has both key material and a phantom address, and panics exactly
    when one of the two is [nil]. *)
Theorem String_returns_iff (fuel : nat) (r : DecoyRegistration) :
  (is_Some (keys r) /\ is_Some (DarkDecoy r) <->
   exists s : string,
     DecoyRegistration_String IP_String (S fuel) (Some r) = Returns s) /\
  (keys r = None \/ DarkDecoy r = None <->
   DecoyRegistration_String IP_String (S fuel) (Some r) = Panics).
Proof.
  destruct (keys r) as [k|] eqn:Hk; destruct (DarkDecoy r) as [ip|] eqn:Hip.
  - rewrite (String_of_complete fuel r k ip _ Hk Hip eq_refl).
    split; split; try (intros; eauto; fail).
    + intros [H|H]; discriminate.
    + discriminate.
  - assert (Hp : DecoyRegistration_String IP_String (S fuel) (Some r) = Panics).
    { cbn [DecoyRegistration_String]. rewrite Hk. cbv zeta.
      rewrite Encode_make. cbn [of_option obind]. now rewrite Hip. }
    rewrite Hp. split; split; try (intros; eauto; fail).
    + intros [_ [x Hx]]. discriminate.
    + intros [s Hs]. discriminate.
  - assert (Hp : DecoyRegistration_String IP_String (S fuel) (Some r) = Panics).
    { cbn [DecoyRegistration_String]. now rewrite Hk. }
    rewrite Hp. split; split; try (intros; eauto; fail).
    + intros [[x Hx] _]. discriminate.
    + intros [s Hs]. discriminate.
  - assert (Hp : DecoyRegistration_String IP_String (S fuel) (Some r) = Panics).
    { cbn [DecoyRegistration_String]. now rewrite Hk. }
    rewrite Hp. split; split; try (intros; eauto; fail).
    + intros [[x Hx] _]. discriminate.
    + intros [s Hs]. discriminate.
Qed.

End DigestMore.

Lemma IDString_prefix_of_digest_secret_witness :
  exists id before after : string,
    DecoyRegistration_IDString (Some entity_10_0_0_5) = Returns id /\
    DecoyRegistration_String (fun _ => "10.0.0.5") 1 (Some entity_10_0_0_5)
    = Returns (before ++ "Shared Secret:" ++ id ++ after).
Proof.
  apply (IDString_prefix_of_digest_secret (fun _ => "10.0.0.5") 0
           entity_10_0_0_5 secret_deadbeef phantom_10_0_0_5);
    [reflexivity | reflexivity | cbn; lia].
Defined.

Lemma String_returns_iff_witness :
  DecoyRegistration_String (fun _ => "10.0.0.5") 1
    (Some (entity_of (Some phantom_10_0_0_5) None)) = Panics.
Proof.
  apply (proj2 (String_returns_iff (fun _ => "10.0.0.5") 0
                  (entity_of (Some phantom_10_0_0_5) None))).
  left. reflexivity.
Defined.

(** ** The manager's operations *)

Lemma To4_of_four (ip : IP) : length ip = 4 -> To4 ip = Some ip.
Proof. intros H. unfold To4, IPv4len. now rewrite decide_True. Qed.

(** An address of 16 bytes that does not begin with a zero byte is not an
    IPv4 address in disguise. *)
Lemma To4_of_sixteen (ip : IP) :
  length ip = 16 -> nth 0 ip x00 <> x00 -> To4 ip = None.
Proof.
  intros Hlen Hfirst. unfold To4, IPv4len, IPv6len.
  rewrite decide_False by lia.
  destruct ip as [|b ip]; [discriminate|]. cbn in Hfirst.
  cbn [take isZeros forallb].
  replace (Byte.eqb b x00) with false.
  - now rewrite andb_false_r.
  - symmetry. apply not_true_is_false. intros H. apply Hfirst.
    now apply Byte.byte_dec_bl.
Qed.

(** The result of [To4] is [nil] or has 4 bytes. *)
Lemma To4_length (ip p : IP) : To4 ip = Some p -> length p = 4.
Proof.
  unfold To4, IPv4len, IPv6len. destruct (decide (length ip = 4)) as [H4|H4].
  - now intros [= <-].
  - destruct (bool_decide (length ip = 16)) eqn:H16; cbn [andb]; [|discriminate].
    apply bool_decide_eq_true in H16.
    destruct (isZeros (take 10 ip) && Byte.eqb (nth 10 ip x00) xff
              && Byte.eqb (nth 11 ip x00) xff); [|discriminate].
    intros [= <-]. rewrite length_drop, length_take. lia.
Qed.

Section ManagerProperties.

Variable DDIpSelector : Type.
Variable IP_String : IP -> string.

Lemma AddRegistration_outcome (ping : option error) (now : Time)
    (regManager : option (RegistrationManager DDIpSelector))
    (d : option DecoyRegistration) :
  fst (AddRegistration DDIpSelector IP_String ping now regManager d)
  = match d, regManager with
    | Some r, Some m =>
        match DarkDecoy r with
        | Some ip =>
            Returns (with_table DDIpSelector m
                       (register now (IP_String ip) d (registeredDecoys _ m)))
        | None => Panics
        end
    | _, _ => Panics
    end.
Proof.
  unfold AddRegistration, registerForDetector, getRedisClient. cbn.
  destruct ping, d as [r|]; cbn; try reflexivity;
    destruct (DarkDecoy r); cbn; try reflexivity;
    destruct regManager; reflexivity.
Qed.

(** X9. Whether [AddRegistration] returns, and the table it leaves, do not
    depend on the detector's redis being reachable, for all arguments. *)
Theorem AddRegistration_ignores_detector (ping ping' : option error) (now : Time)
    (regManager : option (RegistrationManager DDIpSelector))
    (d : option DecoyRegistration) :
  fst (AddRegistration DDIpSelector IP_String ping now regManager d)
  = fst (AddRegistration DDIpSelector IP_String ping' now regManager d).
Proof. now rewrite !AddRegistration_outcome. Qed.

(** X10. After [AddRegistration] of an entity with a phantom address,
    [CheckRegistration] of that address returns the entity, and the lookup
    of every address with another text is as before. *)
Theorem AddRegistration_then_Check (ping : option error) (now : Time)
    (m : RegistrationManager DDIpSelector) (r : DecoyRegistration) (ip : IP) :
  DarkDecoy r = Some ip ->
  exists m' : RegistrationManager DDIpSelector,
    fst (AddRegistration DDIpSelector IP_String ping now (Some m) (Some r))
    = Returns m' /\
    CheckRegistration DDIpSelector IP_String (Some m') (Some ip)
    = Returns (Some r) /\
    forall ip' : IP,
      IP_String ip' <> IP_String ip ->
      CheckRegistration DDIpSelector IP_String (Some m') (Some ip')
      = CheckRegistration DDIpSelector IP_String (Some m) (Some ip').
Proof.
  intros Hip. rewrite AddRegistration_outcome, Hip.
  eexists. split; [reflexivity|].
  unfold CheckRegistration, checkRegistration, with_table.
  cbn [fst registeredDecoys IP_ptr_String obind register decoys]. split.
  - now rewrite lookup_insert_eq.
  - intros ip' Hne. rewrite lookup_insert_ne by congruence. reflexivity.
Qed.

(** X11. With redis reachable, [AddRegistration] of an entity with a
    phantom address pings, publishes one message on [dark_decoy_map] and
    closes the client; the message is the 4 bytes of a 4-byte address, and
    is empty for a 16-byte address that does not begin with a zero byte. *)
Theorem detector_message (now : Time) (m : RegistrationManager DDIpSelector)
    (r : DecoyRegistration) (ip : IP) :
  DarkDecoy r = Some ip ->
  exists message : string,
    snd (AddRegistration DDIpSelector IP_String None now (Some m) (Some r))
    = [RedisNewClient redis_options; RedisPing;
       RedisPublish "dark_decoy_map" message; RedisClose] /\
    (length ip = 4 -> message = string_of_list_byte ip) /\
    (length ip = 16 -> nth 0 ip x00 <> x00 -> message = "").
Proof.
  intros Hip. exists (string_of_slice (To4 ip)). split; [|split].
  - unfold AddRegistration, registerForDetector, getRedisClient. cbn.
    rewrite Hip. reflexivity.
  - intros H4. now rewrite To4_of_four.
  - intros H16 Hfirst. now rewrite To4_of_sixteen.
Qed.

(** X12. With redis unreachable, [AddRegistration] pings, prints
    [couldn't connect to redis] and does nothing else outside the table: it
    publishes nothing and does not close the client, for all arguments. *)
Theorem detector_down (e : error) (now : Time)
    (regManager : option (RegistrationManager DDIpSelector))
    (d : option DecoyRegistration) :
  snd (AddRegistration DDIpSelector IP_String (Some e) now regManager d)
  = [RedisNewClient redis_options; RedisPing; Stdout "couldn't connect to redis"].
Proof.
  unfold AddRegistration, registerForDetector, getRedisClient. cbn.
  destruct d as [r|]; cbn; [|reflexivity].
  destruct (DarkDecoy r); cbn; [|reflexivity].
  destruct regManager; reflexivity.
Qed.

(** X13. [PhantomIsLive] dials [<ip>:443] for a phantom address of
    4 bytes, and [[<ip>]:443] for one of 16 bytes that does not begin with a
    zero byte and for one of any other length than 4 or 16. *)
Theorem PhantomIsLive_address_form (r : DecoyRegistration) (ip : IP) :
  DarkDecoy r = Some ip ->
  (length ip = 4 ->
   PhantomIsLive_address IP_String (Some r) = Returns (IP_String ip ++ ":443")) /\
  (length ip = 16 -> nth 0 ip x00 <> x00 ->
   PhantomIsLive_address IP_String (Some r)
   = Returns ("[" ++ IP_String ip ++ "]:443")) /\
  (length ip <> 4 -> length ip <> 16 ->
   PhantomIsLive_address IP_String (Some r)
   = Returns ("[" ++ IP_String ip ++ "]:443")).
Proof.
  intros Hip. unfold PhantomIsLive_address. rewrite Hip.
  cbn [IP_ptr_To4 IP_ptr_String obind]. repeat split.
  - intros H4. now rewrite To4_of_four.
  - intros H16 Hfirst. now rewrite To4_of_sixteen.
  - intros H4 H16. unfold To4, IPv4len, IPv6len.
    rewrite decide_False by assumption.
    rewrite bool_decide_eq_false_2 by assumption. reflexivity.
Qed.

Section Creation.

Variable ClientToStation : Type.
Variable GetDecoyListGeneration : option ClientToStation -> Z.
Variable GetV6Support : option ClientToStation -> bool.
Variable GetCovertAddress : option ClientToStation -> string.
Variable GetMaskedDecoyServerName : option ClientToStation -> string.
Variable Select :
  option DDIpSelector -> list byte -> Z -> bool -> option IP * option error.

(** X14. [NewRegistration] returns only on a manager and keys that are
    there, and then exactly one of the entity and the error is [nil]: when
    the selector returns an error the result is no entity and that error
    behind the text [Failed to select dark decoy IP address: ]; when it
    returns none the result is no error and an entity with the address the
    selector gave, the keys and flags given and the covert address and mask
    of the message. *)
Theorem NewRegistration_entity_xor_error
    (regManager : option (RegistrationManager DDIpSelector))
    (c2s : option ClientToStation) (conjureKeys : option ConjureSharedKeys)
    (flags : byte) (reg : option DecoyRegistration) (err : option error) :
  NewRegistration DDIpSelector ClientToStation GetDecoyListGeneration
    GetV6Support GetCovertAddress GetMaskedDecoyServerName Select
    regManager c2s conjureKeys flags = Returns (reg, err) ->
  exists (m : RegistrationManager DDIpSelector) (k : ConjureSharedKeys)
         (addr : option IP) (serr : option error),
    regManager = Some m /\ conjureKeys = Some k /\
    Select (DDSelector _ m) (DarkDecoySeed k)
           (GetDecoyListGeneration c2s) (GetV6Support c2s) = (addr, serr) /\
    (reg = None <-> is_Some err) /\
    (forall e : error,
        err = Some e ->
        exists cause : error,
          serr = Some cause /\
          e = "Failed to select dark decoy IP address: " ++ cause) /\
    (forall cause : error,
        serr = Some cause ->
        reg = None /\
        err = Some ("Failed to select dark decoy IP address: " ++ cause)) /\
    (forall d : DecoyRegistration,
        reg = Some d ->
        serr = None /\ DarkDecoy d = addr /\
        keys d = conjureKeys /\ Flags d = flags /\
        Covert d = GetCovertAddress c2s /\
        Mask d = GetMaskedDecoyServerName c2s).
Proof.
  unfold NewRegistration.
  destruct regManager as [m|]; [|discriminate].
  destruct conjureKeys as [k|]; [|discriminate].
  destruct (Select _ _ _ _) as [addr [cause|]] eqn:Hsel.
  - unfold fmt_Errorf, select_error_format.
    change (fmt.Sprintf "Failed to select dark decoy IP address: %v"
              [fmt.OString cause])
      with (Some ("Failed to select dark decoy IP address: " ++ cause ++ "")).
    rewrite append_empty_r. intros [= <- <-].
    exists m, k, addr, (Some cause).
    split; [reflexivity|]. split; [reflexivity|]. split; [exact Hsel|].
    split; [split; eauto|].
    split; [intros e [= <-]; eauto|].
    split; [intros c [= <-]; auto | discriminate].
  - intros [= <- <-].
    exists m, k, addr, None.
    split; [reflexivity|]. split; [reflexivity|]. split; [exact Hsel|].
    split; [split; [discriminate | intros [x Hx]; discriminate]|].
    split; [discriminate|]. split; [discriminate|].
    intros d [= <-]. cbn. auto 10.
Qed.

(** X15. When the selector gives an address, [NewRegistration] returns
    an entity for it; once that entity is added, [CheckRegistration] of the
    address returns it, whatever the state of the detector. *)
Theorem NewRegistration_then_Add_then_Check (ping : option error) (now : Time)
    (m : RegistrationManager DDIpSelector) (c2s : option ClientToStation)
    (k : ConjureSharedKeys) (flags : byte) (ip : IP) :
  Select (DDSelector _ m) (DarkDecoySeed k)
         (GetDecoyListGeneration c2s) (GetV6Support c2s) = (Some ip, None) ->
  exists (d : DecoyRegistration) (m' : RegistrationManager DDIpSelector),
    NewRegistration DDIpSelector ClientToStation GetDecoyListGeneration
      GetV6Support GetCovertAddress GetMaskedDecoyServerName Select
      (Some m) c2s (Some k) flags = Returns (Some d, None) /\
    DarkDecoy d = Some ip /\
    fst (AddRegistration DDIpSelector IP_String ping now (Some m) (Some d))
    = Returns m' /\
    CheckRegistration DDIpSelector IP_String (Some m') (Some ip)
    = Returns (Some d).
Proof.
  intros Hsel. unfold NewRegistration. rewrite Hsel.
  eexists. eexists. split; [reflexivity|]. split; [reflexivity|].
  rewrite AddRegistration_outcome. cbn [DarkDecoy].
  split; [reflexivity|].
  unfold CheckRegistration, checkRegistration, with_table.
  cbn [fst registeredDecoys IP_ptr_String obind register decoys].
  now rewrite lookup_insert_eq.
Qed.

End Creation.

End ManagerProperties.

Lemma AddRegistration_then_Check_witness :
  exists m' : RegistrationManager unit,
    fst (AddRegistration unit example_IP_String None 0%Z (Some manager_new)
           (Some entity_10_0_0_5)) = Returns m' /\
    CheckRegistration unit example_IP_String (Some m') (Some phantom_10_0_0_5)
    = Returns (Some entity_10_0_0_5) /\
    CheckRegistration unit example_IP_String (Some m') (Some phantom_2001_db8__1)
    = CheckRegistration unit example_IP_String (Some manager_new)
        (Some phantom_2001_db8__1).
Proof.
  destruct (AddRegistration_then_Check unit example_IP_String None 0%Z
              manager_new entity_10_0_0_5 phantom_10_0_0_5 eq_refl)
    as (m' & Hadd & Hcheck & Hother).
  exists m'. split; [exact Hadd|]. split; [exact Hcheck|].
  apply Hother. vm_compute. discriminate.
Defined.

Lemma detector_message_witness :
  exists message : string,
    snd (AddRegistration unit example_IP_String None 0%Z (Some manager_new)
           (Some entity_2001_db8__1))
    = [RedisNewClient redis_options; RedisPing;
       RedisPublish "dark_decoy_map" message; RedisClose] /\
    message = "".
Proof.
  destruct (detector_message unit example_IP_String 0%Z manager_new
              entity_2001_db8__1 phantom_2001_db8__1 eq_refl)
    as (message & Htrace & _ & Hv6).
  exists message. split; [exact Htrace|].
  apply Hv6; [reflexivity | discriminate].
Defined.

Lemma PhantomIsLive_address_form_witness :
  PhantomIsLive_address example_IP_String (Some entity_10_0_0_5)
  = Returns "0a000005:443" /\
  PhantomIsLive_address example_IP_String (Some entity_2001_db8__1)
  = Returns "[20010db8000000000000000000000001]:443" /\
  PhantomIsLive_address example_IP_String
    (Some (entity_of (Some []) (Some secret_deadbeef)))
  = Returns "[]:443".
Proof.
  split; [|split].
  - apply (proj1 (PhantomIsLive_address_form example_IP_String
                    entity_10_0_0_5 phantom_10_0_0_5 eq_refl)).
    reflexivity.
  - apply (proj1 (proj2 (PhantomIsLive_address_form example_IP_String
                           entity_2001_db8__1 phantom_2001_db8__1 eq_refl)));
      [reflexivity | discriminate].
  - apply (proj2 (proj2 (PhantomIsLive_address_form example_IP_String
                           (entity_of (Some []) (Some secret_deadbeef)) []
                           eq_refl))); discriminate.
Defined.

Lemma NewRegistration_entity_xor_error_witness :
  exists cause : error,
    select_fails None [] 0%Z false = (None, Some cause) /\
    NewRegistration unit unit (fun _ => 0%Z) (fun _ => false)
      (fun _ => "") (fun _ => "") select_fails
      (Some manager_new) None (Some secret_deadbeef) x01
    = Returns (None, Some ("Failed to select dark decoy IP address: " ++ cause)).
Proof.
  destruct (NewRegistration_entity_xor_error unit unit
              (fun _ => 0%Z) (fun _ => false) (fun _ => "") (fun _ => "")
              select_fails (Some manager_new) None (Some secret_deadbeef) x01
              None
              (Some "Failed to select dark decoy IP address: no subnet for this generation")
              eq_refl)
    as (m & k & addr & serr & _ & _ & Hsel & _ & Herr & _).
  destruct (Herr _ eq_refl) as (cause & Hserr & Hmsg).
  exists cause. split.
  - unfold select_fails in *. congruence.
  - now rewrite <- Hmsg.
Defined.

Lemma NewRegistration_then_Add_then_Check_witness :
  exists (d : DecoyRegistration) (m' : RegistrationManager unit),
    NewRegistration unit unit (fun _ => 0%Z) (fun _ => false)
      (fun _ => "example.com") (fun _ => "decoy.test") select_10_0_0_5
      (Some manager_new) None (Some secret_deadbeef) x01
    = Returns (Some d, None) /\
    DarkDecoy d = Some phantom_10_0_0_5 /\
    fst (AddRegistration unit example_IP_String (Some "connection refused") 0%Z
           (Some manager_new) (Some d)) = Returns m' /\
    CheckRegistration unit example_IP_String (Some m') (Some phantom_10_0_0_5)
    = Returns (Some d).
Proof.
  apply (NewRegistration_then_Add_then_Check unit example_IP_String unit
           (fun _ => 0%Z) (fun _ => false) (fun _ => "example.com")
           (fun _ => "decoy.test") select_10_0_0_5 (Some "connection refused")
           0%Z manager_new None secret_deadbeef x01 phantom_10_0_0_5).
  reflexivity.
Defined.

Import prober_history.

(** ** More on the prober *)

Lemma run_snoc (evs : list event) (ev : event) :
  forall s s' : state,
    run (evs ++ [ev])%list s = Some s' <->
    exists s1 : state, run evs s = Some s1 /\ step ev s1 = Some s'.
Proof.
  induction evs as [|e evs IH]; intros s s'; cbn [app run].
  - split.
    + intros H. exists s. split; [reflexivity|].
      destruct (step ev s); [assumption | discriminate].
    + intros (s1 & [= <-] & H). now rewrite H.
  - destruct (step e s) as [s1|]; [apply IH|].
    split; [discriminate | intros (s2 & H & _); discriminate].
Qed.

(** The cases of a step. *)
Ltac step_cases H j a e Hj Hpc :=
  match type of H with
  | step ?ev ?s = Some _ =>
      destruct ev as [|j [e|]|j]; cbn [step] in H;
      [ |
        destruct (attempts s !! j) as [a|] eqn:Hj; [|discriminate];
        destruct (pc a) eqn:Hpc; try discriminate; injection H as <- |
        destruct (attempts s !! j) as [a|] eqn:Hj; [|discriminate];
        destruct (pc a) eqn:Hpc; try discriminate; injection H as <- |
        destruct (attempts s !! j) as [a|] eqn:Hj; [|discriminate];
        destruct (pc a) as [|e| | |] eqn:Hpc; try discriminate;
        [ | injection H as <- | ] ]
  end.

Lemma reports_ok_set_attempt (s : state) (j : nat) (a a' : attempt) :
  reports_ok s -> attempts s !! j = Some a ->
  pc a <> Exited -> weight a' = weight a ->
  reports_ok (set_attempt s j a').
Proof.
  intros (Hrep & Hnd & Hcount) Hj Hpc Hw.
  unfold reports_ok, set_attempt. cbn [attempts reported].
  split; [|split; [assumption|]].
  - intros j' v Hin. destruct (Hrep j' v Hin) as (a0 & Ha0 & Hex).
    exists a0. split; [|assumption].
    rewrite list_lookup_insert_ne; [assumption|]. intros ->. congruence.
  - pose proof (pending_insert _ j a a' Hj). rewrite length_insert. lia.
Qed.

Lemma reports_ok_send (s s' : state) (j : nat) (a : attempt) (v : option error) :
  reports_ok s -> attempts s !! j = Some a -> pc a <> Exited ->
  step_send s j a v = Some s' -> reports_ok s'.
Proof.
  intros (Hrep & Hnd & Hcount) Hj Hpc Hstep.
  unfold step_send, send in Hstep.
  destruct (decide (length (buf (dialError s)) < cap (dialError s))); [|discriminate].
  injection Hstep as <-. unfold reports_ok. cbn [attempts reported].
  assert (Hlt : j < length (attempts s)) by (eapply lookup_lt_Some; eassumption).
  split; [|split].
  - intros j' v' Hin. apply elem_of_app in Hin as [Hin|Hin].
    + destruct (Hrep j' v' Hin) as (a0 & Ha0 & Hex).
      exists a0. split; [|assumption].
      rewrite list_lookup_insert_ne; [assumption|]. intros ->. congruence.
    + apply list_elem_of_singleton in Hin. injection Hin as -> ->.
      eexists. split; [now apply list_lookup_insert_eq | reflexivity].
  - rewrite fmap_app. apply NoDup_app. split; [assumption|]. split.
    + intros j' Hin Hin'. cbn in Hin'. apply list_elem_of_singleton in Hin'. subst j'.
      apply list_elem_of_fmap in Hin as ([j' v'] & Heq & Hin). cbn in Heq. subst j'.
      destruct (Hrep j v' Hin) as (a0 & Ha0 & Hex). congruence.
    + cbn. apply NoDup_singleton.
  - pose proof (pending_insert _ j a
                  {| pc := Exited; deposited := deposited a + 1 |} Hj) as Hp.
    cbn [weight pc] in Hp.
    assert (weight a = 1) by (unfold weight; destruct (pc a); congruence).
    rewrite length_app, length_insert. cbn [length]. lia.
Qed.

Lemma reports_ok_step (ev : event) (s s' : state) :
  reports_ok s -> step ev s = Some s' -> reports_ok s'.
Proof.
  intros Hok Hstep. step_cases Hstep j a e Hj Hpc.
  - destruct Hok as (Hrep & Hnd & Hcount).
    unfold step_main in Hstep. destruct (main s) as [i| | |live err].
    + destruct (decide (i < width)); injection Hstep as <-;
        unfold reports_ok; cbn [attempts reported]; [|auto].
      split; [|split; [assumption|]].
      * intros j v Hin. destruct (Hrep j v Hin) as (a0 & Ha0 & Hex).
        exists a0. split; [|assumption]. now apply lookup_app_l_Some.
      * rewrite pending_snoc, length_app. cbn. lia.
    + injection Hstep as <-. unfold reports_ok. cbn [attempts reported]. auto.
    + destruct (try_recv (dialError s)) as [[v c]|];
        [destruct v|]; cbn in Hstep; injection Hstep as <-;
        unfold reports_ok; cbn [attempts reported]; auto.
    + discriminate.
  - eapply reports_ok_set_attempt; [eassumption..| |]; [congruence|].
    unfold weight. now rewrite Hpc.
  - eapply reports_ok_set_attempt; [eassumption..| |]; [congruence|].
    unfold weight. now rewrite Hpc.
  - eapply reports_ok_send; [eassumption..| |]; [congruence | eassumption].
  - eapply reports_ok_set_attempt; [eassumption..| |]; [congruence|].
    unfold weight. now rewrite Hpc.
  - eapply reports_ok_send; [eassumption..| |]; [congruence | eassumption].
Qed.

Lemma reports_ok_run (evs : list event) :
  forall s s' : state, reports_ok s -> run evs s = Some s' -> reports_ok s'.
Proof.
  induction evs as [|ev evs IH]; intros s s' Hok Hrun; cbn [run] in Hrun.
  - now injection Hrun as <-.
  - destruct (step ev s) as [s1|] eqn:Hstep; [|discriminate].
    eapply IH; [|eassumption]. eapply reports_ok_step; eassumption.
Qed.

(** X16. In every state that a run can reach no attempt has reported
    twice, every report comes from one of the [width] attempts, there are at
    most [width] reports, and the channel holds no more than its capacity. *)
Theorem reports_once (evs : list event) (s : state) :
  run evs init = Some s ->
  NoDup (reported s).*1 /\
  (forall (j : nat) (v : option error), (j, v) ∈ reported s -> j < width) /\
  length (reported s) <= width /\
  length (buf (dialError s)) <= cap (dialError s).
Proof.
  intros Hrun.
  assert (Hinit : reports_ok init).
  { unfold reports_ok, init. cbn. split; [|split; [constructor | reflexivity]].
    intros j v Hin. now apply elem_of_nil in Hin. }
  pose proof (reports_ok_run evs init s Hinit Hrun) as (Hrep & Hnd & Hcount).
  pose proof (inv_run evs init s inv_init Hrun) as (Hcap & Hroom & Hsp & _ & _).
  assert (Hlen : length (attempts s) <= width).
  { unfold spawned in Hsp. destruct (main s); lia. }
  split; [assumption|]. split; [|split; lia].
  intros j v Hin. destruct (Hrep j v Hin) as (a & Ha & _).
  apply lookup_lt_Some in Ha. lia.
Qed.

Lemma history_ok_set_attempt (evs : list event) (ev : event) (s : state)
    (j : nat) (a a' : attempt) :
  history_ok evs s -> attempts s !! j = Some a ->
  match pc a' with
  | AtSendErr e => DialReturns j (Some e) ∈ (evs ++ [ev])%list
  | AtClose | AtSendNil => DialReturns j None ∈ (evs ++ [ev])%list
  | AtDial | Exited => True
  end ->
  history_ok (evs ++ [ev]) (set_attempt s j a').
Proof.
  intros (Hrep & Hatt & Hmain) Hj Hnew.
  unfold history_ok, set_attempt. cbn [attempts reported main].
  split; [|split; [|assumption]].
  - intros j' v Hin. apply elem_of_app. left. now apply Hrep.
  - intros j' b Hb. destruct (decide (j = j')) as [<-|Hne].
    + rewrite list_lookup_insert_eq in Hb by (eapply lookup_lt_Some; eassumption).
      now injection Hb as <-.
    + rewrite list_lookup_insert_ne in Hb by assumption.
      specialize (Hatt j' b Hb).
      destruct (pc b); try exact I; apply elem_of_app; now left.
Qed.

Lemma history_ok_send (evs : list event) (ev : event) (s s' : state)
    (j : nat) (a : attempt) (v : option error) :
  history_ok evs s -> attempts s !! j = Some a ->
  DialReturns j v ∈ evs ->
  step_send s j a v = Some s' ->
  history_ok (evs ++ [ev]) s'.
Proof.
  intros (Hrep & Hatt & Hmain) Hj Hdial Hstep.
  unfold step_send, send in Hstep.
  destruct (decide (length (buf (dialError s)) < cap (dialError s))); [|discriminate].
  injection Hstep as <-. unfold history_ok. cbn [attempts reported main].
  split; [|split].
  - intros j' v' Hin. apply elem_of_app. left.
    apply elem_of_app in Hin as [Hin|Hin]; [now apply Hrep|].
    apply list_elem_of_singleton in Hin. now injection Hin as -> ->.
  - intros j' b Hb. destruct (decide (j = j')) as [<-|Hne].
    + rewrite list_lookup_insert_eq in Hb by (eapply lookup_lt_Some; eassumption).
      now injection Hb as <-.
    + rewrite list_lookup_insert_ne in Hb by assumption.
      specialize (Hatt j' b Hb).
      destruct (pc b); try exact I; apply elem_of_app; now left.
  - destruct (main s) as [| | |[|] err]; try exact I.
    + destruct Hmain as [He [j' Hj']]. split; [assumption|].
      exists j'. apply elem_of_app. now left.
    + destruct Hmain as [He|(j' & e & He & Hj')]; [now left|].
      right. exists j', e. split; [assumption|]. apply elem_of_app. now left.
Qed.

Lemma history_ok_step (evs : list event) (ev : event) (s s' : state) :
  inv s -> history_ok evs s -> step ev s = Some s' ->
  history_ok (evs ++ [ev]) s'.
Proof.
  intros Hinv Hok Hstep.
  assert (Hmono : forall x : event, x ∈ evs -> x ∈ (evs ++ [ev])%list)
    by (intros x Hx; apply elem_of_app; now left).
  assert (Hlast : ev ∈ (evs ++ [ev])%list)
    by (apply elem_of_app; right; apply list_elem_of_here).
  step_cases Hstep j a e Hj Hpc.
  - destruct Hinv as (_ & _ & _ & _ & Hbuf).
    destruct Hok as (Hrep & Hatt & Hmain).
    assert (Hatt' : forall (j : nat) (a : attempt),
               attempts s !! j = Some a ->
               match pc a with
               | AtSendErr e => DialReturns j (Some e) ∈ (evs ++ [Main])%list
               | AtClose | AtSendNil => DialReturns j None ∈ (evs ++ [Main])%list
               | AtDial | Exited => True
               end).
    { intros j a Ha. specialize (Hatt j a Ha). destruct (pc a); auto. }
    assert (Hrep' : forall (j : nat) (v : option error),
               (j, v) ∈ reported s -> DialReturns j v ∈ (evs ++ [Main])%list)
      by auto.
    unfold step_main in Hstep. destruct (main s) as [i| | |live err] eqn:Hm.
    + destruct (decide (i < width)); injection Hstep as <-;
        unfold history_ok; cbn [attempts reported main]; [|auto].
      split; [assumption|]. split; [|exact I].
      intros j a Ha. apply lookup_app_Some in Ha as [Ha|[_ Ha]];
        [exact (Hatt' j a Ha)|].
      apply list_lookup_singleton_Some in Ha as [_ <-]. exact I.
    + injection Hstep as <-. unfold history_ok. cbn [attempts reported main]. auto.
    + specialize (Hbuf eq_refl). unfold try_recv in Hstep. rewrite Hbuf in Hstep.
      destruct (reported s) as [|[j v] rep] eqn:Hr; cbn in Hstep.
      * injection Hstep as <-. unfold history_ok. cbn [attempts reported main].
        rewrite ?Hr. split; [assumption|]. split; [assumption|]. now left.
      * destruct v as [e|]; cbn in Hstep; injection Hstep as <-;
          unfold history_ok; cbn [attempts reported main]; rewrite ?Hr;
          (split; [assumption|]); (split; [assumption|]).
        -- right. exists j, e. split; [reflexivity | apply list_elem_of_here].
        -- split; [reflexivity|]. exists j. apply list_elem_of_here.
    + discriminate.
  - eapply history_ok_set_attempt; [eassumption..|]. exact Hlast.
  - eapply history_ok_set_attempt; [eassumption..|]. exact Hlast.
  - destruct Hok as (Hrep & Hatt & Hmain).
    pose proof (Hatt j a Hj) as Hd. rewrite Hpc in Hd.
    eapply history_ok_send; [split; [|split]; eassumption | eassumption..].
  - destruct Hok as (Hrep & Hatt & Hmain).
    pose proof (Hatt j a Hj) as Hd. rewrite Hpc in Hd.
    eapply history_ok_set_attempt; [split; [|split]; eassumption | eassumption |].
    cbn. now apply Hmono.
  - destruct Hok as (Hrep & Hatt & Hmain).
    pose proof (Hatt j a Hj) as Hd. rewrite Hpc in Hd.
    eapply history_ok_send; [split; [|split]; eassumption | eassumption..].
Qed.

Lemma history_ok_run (evs : list event) :
  forall s : state, run evs init = Some s -> history_ok evs s.
Proof.
  induction evs as [|ev evs IH] using rev_ind; intros s Hrun.
  - injection Hrun as <-. unfold history_ok, init. cbn.
    split; [|split; [|exact I]].
    + intros j v Hin. now apply elem_of_nil in Hin.
    + intros j a Ha. discriminate.
  - apply run_snoc in Hrun as (s1 & Hrun & Hstep).
    eapply history_ok_step; [|apply IH|]; [|eassumption..].
    eapply inv_run; [apply inv_init | eassumption].
Qed.

(** X17. When the caller has returned live, with no error, the dial of
    some attempt has succeeded in the run; when it has returned not live,
    the error is the timeout or an error that the dial of some attempt has
    returned in the run. *)
Theorem verdict_sound (evs : list event) (s : state) (live : bool)
    (err : option error) :
  run evs init = Some s ->
  main s = Returned live err ->
  (live = true -> err = None /\ exists j : nat, DialReturns j None ∈ evs) /\
  (live = false ->
   err = Some timeout_error \/
   exists (j : nat) (e : error), err = Some e /\ DialReturns j (Some e) ∈ evs).
Proof.
  intros Hrun Hm. destruct (history_ok_run evs s Hrun) as (Hrep & _ & Hmain).
  rewrite Hm in Hmain. split; intros ->.
  - destruct Hmain as [He [j Hj]]. split; [assumption|]. exists j. now apply Hrep.
  - destruct Hmain as [He|(j & e & He & Hj)]; [now left|].
    right. exists j, e. split; [assumption|]. now apply Hrep.
Qed.

Lemma run_app (evs1 evs2 : list event) :
  forall s s1 s2 : state,
    run evs1 s = Some s1 -> run evs2 s1 = Some s2 ->
    run (evs1 ++ evs2)%list s = Some s2.
Proof.
  induction evs1 as [|ev evs1 IH]; intros s s1 s2 H1 H2; cbn [app run] in *.
  - now injection H1 as ->.
  - destruct (step ev s) as [s'|]; [|discriminate]. eapply IH; eassumption.
Qed.

(** The caller can always go on until it has returned. *)
Lemma main_can_return (n : nat) :
  forall s : state,
    inv s -> main_steps_left (main s) <= n ->
    exists (evs : list event) (s' : state),
      run evs s = Some s' /\ inv s' /\ has_returned (main s') = true.
Proof.
  induction n as [|n IH]; intros s Hinv Hn.
  - exists [], s. split; [reflexivity|]. split; [assumption|].
    destruct (main s); cbn in Hn; try lia. reflexivity.
  - destruct (main s) as [i| | |live err] eqn:Hm.
    + assert (exists s1, step Main s = Some s1 /\ main_steps_left (main s1) <= n)
        as (s1 & Hstep & Hn1).
      { cbn [step]. unfold step_main. rewrite Hm.
        cbn [main_steps_left] in Hn.
        destruct (decide (i < width)); eexists; (split; [reflexivity|]);
          cbn [main main_steps_left]; lia. }
      destruct (IH s1 (inv_step _ _ _ Hinv Hstep) Hn1) as (evs & s' & Hrun & H).
      exists (Main :: evs), s'. split; [|exact H]. cbn [run]. now rewrite Hstep.
    + assert (exists s1, step Main s = Some s1 /\ main_steps_left (main s1) <= n)
        as (s1 & Hstep & Hn1).
      { cbn [step]. unfold step_main. rewrite Hm.
        cbn [main_steps_left] in Hn.
        eexists; (split; [reflexivity|]); cbn [main main_steps_left]; lia. }
      destruct (IH s1 (inv_step _ _ _ Hinv Hstep) Hn1) as (evs & s' & Hrun & H).
      exists (Main :: evs), s'. split; [|exact H]. cbn [run]. now rewrite Hstep.
    + assert (exists s1, step Main s = Some s1 /\ main_steps_left (main s1) <= n)
        as (s1 & Hstep & Hn1).
      { cbn [step]. unfold step_main. rewrite Hm.
        destruct (try_recv (dialError s)) as [[[e|] c]|];
          eexists; (split; [reflexivity|]); cbn [main main_steps_left select_result]; lia. }
      destruct (IH s1 (inv_step _ _ _ Hinv Hstep) Hn1) as (evs & s' & Hrun & H).
      exists (Main :: evs), s'. split; [|exact H]. cbn [run]. now rewrite Hstep.
    + exists [], s. split; [reflexivity|]. split; [assumption|]. now rewrite Hm.
Qed.

Lemma all_steps_left_insert (l : list attempt) :
  forall (j : nat) (a a' : attempt),
    l !! j = Some a ->
    all_steps_left (<[j := a']> l) + steps_left a
    = all_steps_left l + steps_left a'.
Proof.
  induction l as [|b l IH]; intros j a a' Hj; [discriminate|].
  destruct j as [|j]; simpl in *.
  - injection Hj as ->. lia.
  - specialize (IH j a a' Hj). lia.
Qed.

Lemma all_steps_left_zero (l : list attempt) :
  all_steps_left l = 0 -> Forall (fun a => pc a = Exited) l.
Proof.
  induction l as [|a l IH]; intros H; [constructor|]. cbn in H.
  constructor; [|apply IH; lia].
  unfold steps_left in H. destruct (pc a); try reflexivity; lia.
Qed.

Lemma all_steps_left_pos (l : list attempt) :
  0 < all_steps_left l ->
  exists (j : nat) (a : attempt), l !! j = Some a /\ pc a <> Exited.
Proof.
  induction l as [|b l IH]; intros H; cbn in H; [lia|].
  destruct (Nat.eq_dec (steps_left b) 0) as [Hb|Hb].
  - destruct (IH ltac:(lia)) as (j & a & Hj & Ha). now exists (S j), a.
  - exists 0, b. split; [reflexivity|]. intros He. apply Hb.
    unfold steps_left. now rewrite He.
Qed.

(** An attempt that has not returned can take a step, whatever the caller
    has done. *)
Lemma attempt_can_step (s : state) (j : nat) (a : attempt) :
  inv s -> attempts s !! j = Some a -> pc a <> Exited ->
  exists (ev : event) (s' : state),
    step ev s = Some s' /\ main s' = main s /\
    length (attempts s') = length (attempts s) /\
    all_steps_left (attempts s') < all_steps_left (attempts s).
Proof.
  intros Hinv Hj Hne.
  assert (Hsend : forall v : option error,
             steps_left a = 1 ->
             exists s' : state,
               step_send s j a v = Some s' /\ main s' = main s /\
               length (attempts s') = length (attempts s) /\
               all_steps_left (attempts s') < all_steps_left (attempts s)).
  { intros v Ha. destruct Hinv as (Hcap & Hroom & _).
    pose proof (pending_lookup _ _ _ Hj) as Hw.
    assert (weight a = 1) by (unfold weight; destruct (pc a); congruence).
    unfold step_send, send. rewrite decide_True by lia.
    eexists. split; [reflexivity|]. cbn [main attempts].
    split; [reflexivity|]. split; [apply length_insert|].
    pose proof (all_steps_left_insert _ j a
                  {| pc := Exited; deposited := deposited a + 1 |} Hj) as Hi.
    cbn [steps_left pc] in Hi. lia. }
  assert (Hset : forall a' : attempt,
             steps_left a' < steps_left a ->
             main (set_attempt s j a') = main s /\
             length (attempts (set_attempt s j a')) = length (attempts s) /\
             all_steps_left (attempts (set_attempt s j a'))
             < all_steps_left (attempts s)).
  { intros a' Hlt. unfold set_attempt. cbn [main attempts].
    split; [reflexivity|]. split; [apply length_insert|].
    pose proof (all_steps_left_insert _ j a a' Hj). lia. }
  destruct (pc a) as [|e| | |] eqn:Hpc; [| | | |congruence].
  - exists (DialReturns j None). eexists. cbn [step]. rewrite Hj, Hpc.
    split; [reflexivity|]. apply Hset. unfold steps_left. rewrite Hpc. cbn. lia.
  - destruct (Hsend (Some e)) as (s' & Hs & H);
      [unfold steps_left; now rewrite Hpc|].
    exists (Attempt j), s'. cbn [step]. rewrite Hj, Hpc. now split.
  - exists (Attempt j). eexists. cbn [step]. rewrite Hj, Hpc.
    split; [reflexivity|]. apply Hset. unfold steps_left. rewrite Hpc. cbn. lia.
  - destruct (Hsend None) as (s' & Hs & H);
      [unfold steps_left; now rewrite Hpc|].
    exists (Attempt j), s'. cbn [step]. rewrite Hj, Hpc. now split.
Qed.

Lemma attempts_can_finish (n : nat) :
  forall s : state,
    inv s -> all_steps_left (attempts s) <= n ->
    exists (evs : list event) (s' : state),
      run evs s = Some s' /\ inv s' /\ main s' = main s /\
      length (attempts s') = length (attempts s) /\
      all_steps_left (attempts s') = 0.
Proof.
  induction n as [|n IH]; intros s Hinv Hn.
  - exists [], s. split; [reflexivity|]. split; [assumption|].
    split; [reflexivity|]. split; [reflexivity | lia].
  - destruct (decide (all_steps_left (attempts s) = 0)) as [Hz|Hnz].
    + exists [], s. split; [reflexivity|]. split; [assumption|].
      split; [reflexivity|]. split; [reflexivity | assumption].
    + destruct (all_steps_left_pos (attempts s) ltac:(lia)) as (j & a & Hj & Ha).
      destruct (attempt_can_step s j a Hinv Hj Ha)
        as (ev & s1 & Hstep & Hm1 & Hl1 & Hlt).
      destruct (IH s1 (inv_step _ _ _ Hinv Hstep) ltac:(lia))
        as (evs & s' & Hrun & Hinv' & Hm' & Hl' & Hz').
      exists (ev :: evs), s'. cbn [run]. rewrite Hstep.
      split; [assumption|]. split; [assumption|].
      split; [congruence|]. split; [congruence | assumption].
Qed.

(** X18. From every state that a run can reach, the run can go on until
    the caller has returned and all [width] attempts have returned, each
    after exactly one send: no attempt is ever left unable to finish. *)
Theorem attempts_can_always_finish (evs : list event) (s : state) :
  run evs init = Some s ->
  exists (evs' : list event) (s' : state),
    run evs' s = Some s' /\
    has_returned (main s') = true /\
    length (attempts s') = width /\
    Forall (fun a => pc a = Exited /\ deposited a = 1) (attempts s').
Proof.
  intros Hrun.
  pose proof (inv_run evs init s inv_init Hrun) as Hinv.
  destruct (main_can_return _ s Hinv (Nat.le_refl _)) as (evs1 & s1 & Hrun1 & Hinv1 & Hret1).
  destruct (attempts_can_finish _ s1 Hinv1 (Nat.le_refl _))
    as (evs2 & s2 & Hrun2 & Hinv2 & Hm2 & _ & Hz2).
  exists (evs1 ++ evs2)%list, s2.
  split; [eapply run_app; eassumption|].
  split; [now rewrite Hm2|].
  destruct Hinv2 as (_ & _ & Hsp & Hok & _). split.
  - unfold spawned in Hsp. rewrite Hm2 in Hsp.
    destruct (main s1); try discriminate. exact Hsp.
  - apply all_steps_left_zero in Hz2.
    apply Forall_forall. intros a Ha.
    pose proof (proj1 (Forall_forall _ _) Hz2 a Ha) as Hex.
    pose proof (proj1 (Forall_forall _ _) Hok a Ha) as Hd.
    unfold attempt_ok in Hd. rewrite Hex in Hd. now split.
Qed.

Lemma reports_once_witness :
  NoDup (reported state_refused).*1 /\ length (reported state_refused) <= width.
Proof.
  destruct (reports_once schedule_refused state_refused eq_refl)
    as (Hnd & _ & Hlen & _).
  split; assumption.
Defined.

Lemma verdict_sound_witness :
  exists j : nat, DialReturns j None ∈ schedule_live.
Proof.
  exact (proj2 (proj1 (verdict_sound schedule_live state_live true None
                         eq_refl eq_refl) eq_refl)).
Defined.

Lemma attempts_can_always_finish_witness :
  exists (evs' : list event) (s' : state),
    run evs' state_straggler = Some s' /\
    has_returned (main s') = true /\
    length (attempts s') = width /\
    Forall (fun a => pc a = Exited /\ deposited a = 1) (attempts s').
Proof.
  exact (attempts_can_always_finish schedule_straggler state_straggler eq_refl).
Defined.

(** ** The order of the expiry queue, over the calls of a run *)

Section QueueOrderRuns.

Variable IP_String : IP -> string.

Lemma queue_ok_exec_bound (bound now : Time) (c : call) (r : RegisteredDecoys) :
  queue_ok bound r ->
  match c with
  | CallRegister _ (Some _) => (bound <= now)%Z
  | _ => True
  end ->
  queue_ok (bound_after bound now c) (exec IP_String now c r).
Proof.
  intros [Hs Hle] Hclock.
  destruct c as [a [d|]|a|];
    cbn [exec register checkRegistration snd bound_after];
    try (split; assumption).
  - split; cbn [decoysTimeouts].
    + apply queue_sorted_snoc; [assumption|]. cbn. intros e He.
      specialize (Hle e He). lia.
    + intros e He. apply elem_of_app in He as [He|He].
      * specialize (Hle e He). lia.
      * apply list_elem_of_singleton in He. subst e. cbn. lia.
  - rewrite removeOld_unfold. split; cbn [decoysTimeouts].
    + now apply queue_sorted_drop.
    + intros e He. apply Hle. exact (subseteq_drop _ _ e He).
Qed.

(** Where an entry of the queue after a call comes from. *)
Lemma queue_entry_origin (now : Time) (c : call) (r : RegisteredDecoys)
    (e : timeoutEntry) :
  e ∈ decoysTimeouts (exec IP_String now c r) ->
  e ∈ decoysTimeouts r \/
  exists d : DecoyRegistration,
    c = CallRegister (decoy e) (Some d) /\ registrationTime e = now.
Proof.
  destruct c as [a [d|]|a|]; cbn [exec register checkRegistration snd];
    try (intros He; now left).
  - cbn [decoysTimeouts]. intros He. apply elem_of_app in He as [He|He]; [now left|].
    apply list_elem_of_singleton in He. subst e. right. now exists d.
  - rewrite removeOld_unfold. cbn [decoysTimeouts]. intros He. left.
    exact (subseteq_drop _ _ e He).
Qed.

Lemma queue_order_exec_all (calls : list (Time * call)) :
  forall (bound : Time) (r : RegisteredDecoys),
    queue_ok bound r -> register_clock_from bound calls ->
    queue_sorted (decoysTimeouts (exec_all IP_String calls r)) /\
    forall e : timeoutEntry,
      e ∈ decoysTimeouts (exec_all IP_String calls r) ->
      e ∈ decoysTimeouts r \/
      exists d : DecoyRegistration,
        (registrationTime e, CallRegister (decoy e) (Some d)) ∈ calls.
Proof.
  induction calls as [|[t c] calls IH]; intros bound r Hok Hclock.
  - split; [exact (proj1 Hok) | now left].
  - change (exec_all IP_String ((t, c) :: calls) r)
      with (exec_all IP_String calls (exec IP_String t c r)).
    assert (Hstep : match c with
                    | CallRegister _ (Some _) => (bound <= t)%Z
                    | _ => True
                    end /\ register_clock_from (bound_after bound t c) calls).
    { destruct c as [a [d|]|a|]; cbn [register_clock_from bound_after] in *;
        try (split; [exact I | assumption]). exact Hclock. }
    destruct Hstep as [Ht Hrest].
    destruct (IH _ _ (queue_ok_exec_bound bound t c r Hok Ht) Hrest) as [Hs Hfrom].
    split; [assumption|]. intros e He.
    destruct (Hfrom e He) as [Hin|[d Hd]].
    + destruct (queue_entry_origin t c r e Hin) as [Hold|[d [-> <-]]]; [now left|].
      right. exists d. apply list_elem_of_here.
    + right. exists d. now apply list_elem_of_further.
Qed.

(** C9. The queue of a new table is in time order and every operation
    keeps it so: [register] leaves it as it is or appends one pair stamped
    with the time it reads, which is not before the stamps already there;
    [removeOldRegistrations] leaves a suffix of it, whatever the time it
    has read; [checkRegistration] leaves the table as it is. Hence after
    any calls in which the times stamped by [register] do not decrease, the
    queue is in time order and each of its pairs is the address and time of
    a [register] call. *)
Theorem queue_order_invariant :
  (forall bound : Time, queue_ok bound NewRegisteredDecoys) /\
  (forall (bound now : Time) (c : call) (r : RegisteredDecoys),
      queue_ok bound r ->
      match c with
      | CallRegister _ (Some _) => (bound <= now)%Z
      | _ => True
      end ->
      queue_ok (bound_after bound now c) (exec IP_String now c r) /\
      match c with
      | CallRegister a (Some _) =>
          decoysTimeouts (exec IP_String now c r)
          = (decoysTimeouts r ++ [{| decoy := a; registrationTime := now |}])%list
      | CallRegister a None =>
          decoysTimeouts (exec IP_String now c r) = decoysTimeouts r
      | CallCheck _ => exec IP_String now c r = r
      | CallRemoveOld =>
          decoysTimeouts (exec IP_String now c r) `suffix_of` decoysTimeouts r
      end) /\
  (forall (start : Time) (calls : list (Time * call)),
      register_clock_from start calls ->
      queue_sorted (decoysTimeouts (exec_all IP_String calls NewRegisteredDecoys)) /\
      forall e : timeoutEntry,
        e ∈ decoysTimeouts (exec_all IP_String calls NewRegisteredDecoys) ->
        exists d : DecoyRegistration,
          (registrationTime e, CallRegister (decoy e) (Some d)) ∈ calls).
Proof.
  assert (Hnew : forall bound : Time, queue_ok bound NewRegisteredDecoys).
  { intros bound. split.
    - intros i j ei ej _ Hi. cbn in Hi. discriminate.
    - intros e He. cbn in He. now apply elem_of_nil in He. }
  split; [exact Hnew|]. split.
  - intros bound now c r Hok Hclock.
    split; [now apply queue_ok_exec_bound|].
    destruct c as [a [d|]|a|]; cbn [exec register checkRegistration snd];
      try reflexivity.
    rewrite removeOld_unfold. apply suffix_drop.
  - intros start calls Hclock.
    destruct (queue_order_exec_all calls start NewRegisteredDecoys (Hnew start) Hclock)
      as [Hs Hfrom].
    split; [assumption|]. intros e He.
    destruct (Hfrom e He) as [Hin|Hd]; [|assumption].
    cbn in Hin. now apply elem_of_nil in Hin.
Qed.

End QueueOrderRuns.

Lemma queue_order_invariant_witness :
  queue_ok (6 * Minute)%Z
    (exec (fun _ => "10.0.0.5") (5 * Minute + 30 * Second)%Z CallRemoveOld
       (exec (fun _ => "10.0.0.5") (6 * Minute)%Z
          (CallRegister "10.0.0.6" (Some entity_10_0_0_5))
          table_registered_at_0)) /\
  queue_sorted
    (decoysTimeouts
       (exec_all (fun _ => "10.0.0.5") calls_with_late_sweep NewRegisteredDecoys)) /\
  decoysTimeouts
    (exec_all (fun _ => "10.0.0.5") calls_with_late_sweep NewRegisteredDecoys)
  = [{| decoy := "10.0.0.5"; registrationTime := 0%Z |};
     {| decoy := "10.0.0.6"; registrationTime := (6 * Minute)%Z |};
     {| decoy := "10.0.0.7"; registrationTime := (7 * Minute)%Z |}].
Proof.
  pose proof (queue_order_invariant (fun _ => "10.0.0.5")) as (Hnew & Hcall & Hrun).
  split; [|split; [|vm_compute; reflexivity]].
  - refine (proj1 (Hcall (6 * Minute)%Z (5 * Minute + 30 * Second)%Z
                     CallRemoveOld _ _ I)).
    refine (proj1 (Hcall 0%Z (6 * Minute)%Z
                     (CallRegister "10.0.0.6" (Some entity_10_0_0_5))
                     table_registered_at_0 _ _)).
    + refine (proj1 (Hcall 0%Z 0%Z
                       (CallRegister "10.0.0.5" (Some entity_10_0_0_5))
                       NewRegisteredDecoys (Hnew 0%Z) _)).
      cbn. lia.
    + vm_compute. discriminate.
  - refine (proj1 (Hrun 0%Z calls_with_late_sweep _)).
    cbn. repeat split; vm_compute; discriminate.
Defined.

Import prober_channel.

(** ** The channel and the reports *)

Lemma channel_ok_step (ev : event) (s s' : state) :
  channel_ok s -> step ev s = Some s' -> channel_ok s'.
Proof.
  intros (rcv & Hlen & Hnone & Heq) Hstep. step_cases Hstep j a e Hj Hpc.
  - unfold step_main in Hstep. destruct (main s) as [i| | |live err] eqn:Hm.
    + destruct (decide (i < width)); injection Hstep as <-;
        exists rcv; cbn [main dialError reported has_returned] in *; auto.
    + injection Hstep as <-. exists rcv.
      cbn [main dialError reported has_returned] in *. auto.
    + specialize (Hnone eq_refl). subst rcv. cbn [app] in Heq.
      unfold try_recv in Hstep.
      destruct (buf (dialError s)) as [|v rest] eqn:Hbuf.
      * cbn in Hstep. injection Hstep as <-. exists [].
        cbn [main dialError reported has_returned length app].
        rewrite Hbuf. split; [lia|]. split; [discriminate | assumption].
      * assert (exists live err,
                   s' = {| dialError := {| cap := cap (dialError s); buf := rest |};
                           attempts := attempts s;
                           main := Returned live err;
                           reported := reported s |}) as (live & err & ->).
        { destruct v; cbn in Hstep; injection Hstep as <-; eauto. }
        exists [v]. cbn [main dialError reported has_returned length app buf].
        split; [lia|]. split; [discriminate | assumption].
    + discriminate.
  - exists rcv. unfold set_attempt. cbn [main dialError reported]. auto.
  - exists rcv. unfold set_attempt. cbn [main dialError reported]. auto.
  - unfold step_send, send in Hstep.
    destruct (decide (length (buf (dialError s)) < cap (dialError s))); [|discriminate].
    injection Hstep as <-. exists rcv. cbn [main dialError reported buf].
    split; [assumption|]. split; [assumption|].
    rewrite fmap_app, Heq, <- app_assoc. reflexivity.
  - exists rcv. unfold set_attempt. cbn [main dialError reported]. auto.
  - unfold step_send, send in Hstep.
    destruct (decide (length (buf (dialError s)) < cap (dialError s))); [|discriminate].
    injection Hstep as <-. exists rcv. cbn [main dialError reported buf].
    split; [assumption|]. split; [assumption|].
    rewrite fmap_app, Heq, <- app_assoc. reflexivity.
Qed.

Lemma exited_reported_set_attempt (s : state) (j : nat) (a' : attempt) :
  exited_reported s -> pc a' <> Exited -> exited_reported (set_attempt s j a').
Proof.
  intros Hs Hne j' b Hb Hex. unfold set_attempt in *. cbn [attempts reported] in *.
  destruct (decide (j = j')) as [<-|Hjj].
  - destruct (decide (j < length (attempts s))) as [Hlt|Hge].
    + rewrite list_lookup_insert_eq in Hb by assumption.
      injection Hb as <-. contradiction.
    + rewrite list_insert_ge in Hb by lia. eapply Hs; eassumption.
  - rewrite list_lookup_insert_ne in Hb by assumption. eapply Hs; eassumption.
Qed.

Lemma exited_reported_send (s s' : state) (j : nat) (a : attempt)
    (v : option error) :
  exited_reported s -> step_send s j a v = Some s' -> exited_reported s'.
Proof.
  intros Hs Hstep. unfold step_send, send in Hstep.
  destruct (decide (length (buf (dialError s)) < cap (dialError s))); [|discriminate].
  injection Hstep as <-. intros j' b Hb Hex. cbn [attempts reported] in *.
  destruct (decide (j = j')) as [<-|Hjj].
  - exists v. apply elem_of_app. right. apply list_elem_of_here.
  - rewrite list_lookup_insert_ne in Hb by assumption.
    destruct (Hs j' b Hb Hex) as [v' Hv']. exists v'. apply elem_of_app. now left.
Qed.

Lemma exited_reported_step (ev : event) (s s' : state) :
  exited_reported s -> step ev s = Some s' -> exited_reported s'.
Proof.
  intros Hs Hstep. step_cases Hstep j a e Hj Hpc.
  - unfold step_main in Hstep. destruct (main s) as [i| | |live err] eqn:Hm.
    + destruct (decide (i < width)); injection Hstep as <-; [|exact Hs].
      intros j b Hb Hex. cbn [attempts reported] in *.
      apply lookup_app_Some in Hb as [Hb|[_ Hb]]; [eapply Hs; eassumption|].
      apply list_lookup_singleton_Some in Hb as [_ <-]. discriminate.
    + injection Hstep as <-. exact Hs.
    + destruct (try_recv (dialError s)) as [[[err|] c]|];
        cbn in Hstep; injection Hstep as <-; exact Hs.
    + discriminate.
  - apply exited_reported_set_attempt; [assumption | discriminate].
  - apply exited_reported_set_attempt; [assumption | discriminate].
  - eapply exited_reported_send; eassumption.
  - apply exited_reported_set_attempt; [assumption | discriminate].
  - eapply exited_reported_send; eassumption.
Qed.

Lemma channel_reports_run (evs : list event) :
  forall s s' : state,
    channel_ok s -> exited_reported s -> run evs s = Some s' ->
    channel_ok s' /\ exited_reported s'.
Proof.
  induction evs as [|ev evs IH]; intros s s' Hc He Hrun; cbn [run] in Hrun.
  - injection Hrun as <-. now split.
  - destruct (step ev s) as [s1|] eqn:Hstep; [|discriminate].
    apply (IH s1); [eapply channel_ok_step | eapply exited_reported_step
                    | assumption]; eassumption.
Qed.

Lemma filter_fst_none (l : list (nat * option error)) (j : nat) :
  (forall v : option error, (j, v) ∉ l) ->
  filter (fun r => r.1 = j) l = [].
Proof.
  induction l as [|[j' v'] l IH]; intros Hno; [reflexivity|].
  rewrite filter_cons_False.
  - apply IH. intros v Hin. apply (Hno v). now apply list_elem_of_further.
  - cbn. intros ->. apply (Hno v'). apply list_elem_of_here.
Qed.

Lemma filter_fst_one (l : list (nat * option error)) (j : nat) (v : option error) :
  NoDup l.*1 -> (j, v) ∈ l -> filter (fun r => r.1 = j) l = [(j, v)].
Proof.
  induction l as [|[j' v'] l IH]; intros Hnd Hin.
  - now apply elem_of_nil in Hin.
  - cbn [fmap list_fmap] in Hnd. apply NoDup_cons in Hnd as [Hnotin Hnd].
    apply elem_of_cons in Hin as [Heq|Hin].
    + injection Heq as <- <-. rewrite filter_cons_True by reflexivity.
      f_equal. apply filter_fst_none. intros w Hw. apply Hnotin.
      apply list_elem_of_fmap. now exists (j, w).
    + rewrite filter_cons_False; [now apply IH|].
      cbn. intros ->. apply Hnotin. apply list_elem_of_fmap. now exists (j, v).
Qed.

(** C8. In every state that a run can reach, also after the caller has
    returned: the channel has the capacity [width] and holds exactly the
    values sent and not received; an attempt that has returned has put
    exactly one value on the channel and one that has not has put none; and
    an attempt that is past its dial can take its next step, where a send
    does not have to wait, puts the outcome of the attempt at the end of
    the channel and lets the attempt return. *)
Theorem attempts_never_block (evs : list event) (s : state) :
  run evs init = Some s ->
  cap (dialError s) = width /\
  spawned (main s) (length (attempts s)) /\
  channel_ok s /\
  forall (j : nat) (a : attempt),
    attempts s !! j = Some a ->
    (pc a = Exited ->
     deposited a = 1 /\ exists v : option error, reports_of j s = [(j, v)]) /\
    (pc a <> Exited -> deposited a = 0 /\ reports_of j s = []) /\
    (pc a <> AtDial -> pc a <> Exited -> is_Some (step (Attempt j) s)) /\
    (forall e : error, pc a = AtSendErr e -> deposits s j (Some e)) /\
    (pc a = AtSendNil -> deposits s j None).
Proof.
  intros Hrun.
  pose proof (inv_run evs init s inv_init Hrun) as (Hcap & Hroom & Hsp & Hok & _).
  assert (Hinit : reports_ok init).
  { unfold reports_ok, init. cbn. split; [|split; [constructor | reflexivity]].
    intros j v Hin. now apply elem_of_nil in Hin. }
  pose proof (reports_ok_run evs init s Hinit Hrun) as (Hrep & Hnd & _).
  destruct (channel_reports_run evs init s) as [Hch Hex]; try assumption.
  { exists []. cbn. repeat split; auto. }
  { intros j a Hj. discriminate. }
  split; [assumption|]. split; [assumption|]. split; [assumption|].
  intros j a Hj.
  assert (Ha : attempt_ok a) by (eapply Forall_lookup_1; eassumption).
  pose proof (pending_lookup _ _ _ Hj) as Hw.
  unfold attempt_ok in Ha. unfold weight in Hw.
  assert (Hnone : pc a <> Exited -> reports_of j s = []).
  { intros Hne. apply filter_fst_none. intros v Hin.
    destruct (Hrep j v Hin) as (a0 & Ha0 & Hex0). congruence. }
  assert (Hsend : forall v : option error,
             pc a <> Exited ->
             step (Attempt j) s = step_send s j a v -> deposits s j v).
  { intros v Hne Hstep. unfold deposits. rewrite Hstep.
    unfold step_send, send. rewrite decide_True
      by (destruct (pc a); try contradiction; lia).
    eexists. split; [reflexivity|]. cbn [dialError buf cap attempts main].
    split; [reflexivity|]. split; [reflexivity|]. split; [|split; [|reflexivity]].
    - eexists. split.
      + apply list_lookup_insert_eq. eapply lookup_lt_Some; eassumption.
      + reflexivity.
    - unfold reports_of in *. cbn [reported]. rewrite filter_app, (Hnone Hne).
      rewrite filter_cons_True by reflexivity. reflexivity. }
  split; [|split; [|split; [|split]]].
  - intros Hpc. rewrite Hpc in Ha. split; [assumption|].
    destruct (Hex j a Hj Hpc) as [v Hv]. exists v.
    now apply filter_fst_one.
  - intros Hpc. split; [destruct (pc a); congruence | now apply Hnone].
  - intros Hd He. destruct (pc a) as [|e| | |] eqn:Hpc; try contradiction.
    + destruct (Hsend (Some e)) as (s' & Hs & _); [discriminate| |eauto].
      cbn [step]. now rewrite Hj, Hpc.
    + cbn [step]. rewrite Hj, Hpc. eauto.
    + destruct (Hsend None) as (s' & Hs & _); [discriminate| |eauto].
      cbn [step]. now rewrite Hj, Hpc.
  - intros e Hpc. apply Hsend; [congruence|]. cbn [step]. now rewrite Hj, Hpc.
  - intros Hpc. apply Hsend; [congruence|]. cbn [step]. now rewrite Hj, Hpc.
Qed.

Lemma attempts_never_block_witness :
  deposits state_straggler 0 None.
Proof.
  refine (proj2 (proj2 (proj2 (proj2 (proj2 (proj2 (proj2
            (attempts_never_block schedule_straggler state_straggler eq_refl)))
            0 {| pc := AtSendNil; deposited := 0 |} eq_refl)))) eq_refl).
Defined.
